(** * Query subclasses of django.db.models.sql.subqueries

    A shallow embedding of the insert / update / delete / date / aggregate
    query classes (django/db/models/sql/subqueries.py) and of the GIS insert
    variant (django/contrib/gis/db/models/sql/subqueries.py).

    Python objects are mutable, and an exception does not undo the
    assignments made before it.  Method bodies are therefore written in a
    state-and-exception monad whose state survives a raised exception.  The
    base [Query] class, the SQL compilers, the where tree and the model
    metadata are not part of these two files: they appear as interfaces
    (type classes) whose methods the code calls.  Every call of
    [execute_sql] is recorded, with the query as it is at that moment, in
    the list [executed] that accompanies the query object.

    An exception raised inside a collaborator is kept apart from the
    exceptions of these two files: it is [Foreign], with the name the
    collaborator gives it.  The two [clone] methods play no part in the
    properties proved here and are left out. *)

From stdpp Require Import base option list gmap strings.
From Stdlib Require Import ZArith Lia.

Open Scope string_scope.
Open Scope list_scope.
Open Scope nat_scope.

(** ** Python values and collaborators' data *)

(** The scalar values that travel through the queries as parameters. *)
Inductive value :=
| VNone
| VBool (b : bool)
| VInt (n : Z)
| VStr (s : string).

Global Instance value_eq_dec : EqDecision value.
Proof. solve_decision. Defined.

(** A model class, identified by its label. *)
Abbreviation Model := string.

(** The [using] argument: a database alias, or [None]. *)
Definition DB := option string.

(** A database connection handed out by a compiler. *)
Record Connection := { conn_alias : DB }.

(** A model field.  [get_placeholder] is an optional method
    ([hasattr(field, 'get_placeholder')]); the [m2m_*] methods are those of
    many-to-many fields, [generic] is [isinstance(f, GenericRelation)]. *)
Record Field := {
  name : string;
  column : string;
  get_placeholder : option (value → Connection → string);
  m2m_db_table : string;
  m2m_column_name : string;
  m2m_reverse_name : string;
  generic : bool
}.

(** ** Exceptions and the method monad *)

Inductive exn :=
| FieldError (f : Field)      (* django.core.exceptions.FieldError *)
| ValueError                  (* range() called with a zero step *)
| IndexError                  (* [l[-1]] on an empty list *)
| Foreign (e : string).       (* raised inside a collaborator, of any class *)

Inductive outcome (A : Type) :=
| Returned (a : A)
| Raised (e : exn).
Arguments Returned {A} a.
Arguments Raised {A} e.

(** A method body over an object of type [S]: it ends by returning or by
    raising, and in both cases leaves a state behind. *)
Definition M (S A : Type) : Type := S → outcome A * S.

Global Instance M_ret {S} : MRet (M S) := λ A a s, (Returned a, s).

Global Instance M_bind {S} : MBind (M S) := λ A B k m s,
  match m s with
  | (Returned a, s') => k a s'
  | (Raised e, s') => (Raised e, s')
  end.

Definition raise {S A} (e : exn) : M S A := λ s, (Raised e, s).
Definition get {S} : M S S := λ s, (Returned s, s).
Definition modify {S} (f : S → S) : M S unit := λ s, (Returned tt, f s).

(** Result of a collaborator that may raise an exception of its own. *)
Definition lift {S A} (r : string + A) : M S A :=
  match r with
  | inl e => raise (Foreign e)
  | inr a => mret a
  end.

(** How a call of a collaborator ends, as an outcome. *)
Definition outcome_of {A} (r : string + A) : outcome A :=
  match r with
  | inl e => Raised (Foreign e)
  | inr a => Returned a
  end.

(** [for x in l: body x] *)
Fixpoint for_each {S X} (l : list X) (body : X → M S unit) : M S unit :=
  match l with
  | [] => mret tt
  | x :: l' => body x;; for_each l' body
  end.

(** How a run ended. *)
Definition raises {A S} (r : outcome A * S) : Prop :=
  match r.1 with Raised _ => True | Returned _ => False end.

Definition raises_FieldError {A S} (r : outcome A * S) : Prop :=
  match r.1 with Raised (FieldError _) => True | _ => False end.

(** ** range() and list slices *)

(** [range(start, stop, step)] for a non-negative step: the offsets
    [start, start+step, ...] below [stop].  A zero step is a ValueError.
    The recursion is on a bound [fuel] of the number of offsets. *)
Fixpoint range_from (fuel start stop step : nat) : list nat :=
  match fuel with
  | O => []
  | S fuel' =>
      if decide (start < stop)
      then start :: range_from fuel' (start + step) stop step
      else []
  end.

Definition range {S} (start stop step : nat) : M S (list nat) :=
  if decide (step = 0) then raise ValueError
  else mret (range_from (stop - start) start stop step).

(** [l[lo:hi]] for [0 <= lo <= hi]. *)
Definition slice {A} (l : list A) (lo hi : nat) : list A :=
  take (hi - lo) (drop lo l).

(** The slices [l[offset : offset + n]] taken at the offsets of
    [range(0, len(l), n)], as the batch loops take them. *)
Definition chunks {A} (n : nat) (l : list A) : list (list A) :=
  (λ offset, slice l offset (offset + n))
    <$> range_from (length l - 0) 0 (length l) n.

(** ** Collaborators outside this layer *)

(** *** The where tree (django.db.models.sql.where) *)

Record Constraint := {
  c_alias : option string;
  c_col : string;
  c_field : Field
}.

(** Right-hand side of a lookup: one value, or a list for ['in']. *)
Inductive lookup_value :=
| One (v : value)
| Many (vs : list value).

Inductive Connector := AND | OR.

Inductive WhereChild (N : Type) :=
| Leaf (c : Constraint) (lookup_type : string) (v : lookup_value)
| Subtree (n : N).
Arguments Leaf {N} c lookup_type v.
Arguments Subtree {N} n.

Class WhereClass := {
  WhereNode : Type;
  where_class : WhereNode;                       (* [self.where_class()] *)
  where_add : WhereNode → WhereChild WhereNode → Connector → WhereNode;
  where_bool : WhereNode → bool                  (* truth value of a node *)
}.

(** *** Model metadata ([model._meta]) *)

Class MetaLayer := {
  pk : Model → Field;
  db_table : Model → string;
  (* (field, model, direct, m2m), or an exception of the metadata layer *)
  get_field_by_name :
    Model → string → string + (Field * option Model * bool * bool);
  (* the [field] of every related many-to-many object *)
  get_all_related_many_to_many_objects : Model → list Field;
  many_to_many : Model → list Field;
  (* [f.rel.to._meta.get_field(f.content_type_field_name)] *)
  content_type_field : Field → Field;
  (* [ContentType.objects.get_for_model(cls).id] *)
  content_type_id : Model → value
}.

(** *** The base class django.db.models.sql.query.Query *)

(** django.db.models.sql.datastructures.Date *)
Record Date := { col : string * string; lookup_type : string }.

Inductive SelectItem :=
| SelCol (c : string * string)
| SelDate (d : Date).

Inductive SelectRelated :=
| SR (b : bool)
| SRFields (names : list string).

Inductive OrderTerm :=
| ByName (s : string)
| ByPos (i : Z).

(** The attributes of a query object that this layer reads or assigns;
    [attrs] holds every other attribute of the instance. *)
Record Query {W : WhereClass} := {
  model : Model;
  tables : list string;
  where_ : WhereNode;               (* the attribute [where] *)
  select : list SelectItem;
  select_fields : list (option Field);
  select_related : SelectRelated;
  distinct : bool;
  order_by : list OrderTerm;
  attrs : gmap string value
}.

(** The tuple [setup_joins] returns; the code reads its component 3. *)
Record JoinResult := { joins : list string }.

(** Methods inherited from [Query].  Each may change the query it is
    called on, so it returns the query it leaves behind. *)
Class QueryBase {W : WhereClass} := {
  Query_init : Model → Query;                    (* [Query.__init__(model)] *)
  get_meta : Query → Model;
  get_initial_alias : Query → string * Query;
  (* the tuple it returns or the exception it raises, and the query *)
  setup_joins :
    list string → Model → string → bool → Query →
    (string + JoinResult) * Query;
  set_extra_mask : list string → Query → Query
}.

(** *** SQL compilers ([get_compiler(using)]) *)

(** One call of [execute_sql]: the compiler class, the database alias, the
    query object as it is when [execute_sql] runs, and the argument. *)
Record Execution (Q : Type) := {
  compiler : string;
  using_ : DB;                     (* the argument [using] *)
  query : Q;
  arg : value
}.
Arguments compiler {Q} _.
Arguments using_ {Q} _.
Arguments query {Q} _.
Arguments arg {Q} _.

(** A query object together with the executions issued so far. *)
Record Run (Q : Type) := {
  self : Q;
  executed : list (Execution Q)
}.
Arguments self {Q} _.
Arguments executed {Q} _.

(** [Query.get_compiler] and the compilers' [execute_sql] belong to the
    base class and to the compiler modules, outside these files.
    [Query_get_compiler cls using q] is what [q.get_compiler(using)] does
    for a query [q] whose [compiler] attribute is [cls]: it raises, or it
    returns a compiler, of which the code reads the [connection].
    [Compiler_execute_sql before e] is what the compiler's [execute_sql]
    does for the execution [e] when the executions [before] have been made:
    it raises, or it returns a value. *)
Class CompilerLayer (Q : Type) := {
  Query_get_compiler : string → DB → Q → string + Connection;
  Compiler_execute_sql : list (Execution Q) → Execution Q → string + value
}.

(** A compiler object: its class, its alias and its connection; its query
    is [self]. *)
Record Compiler := {
  compiler_class : string;
  compiler_using : DB;
  connection : Connection
}.

Definition get_compiler {Q} {CL : CompilerLayer Q} (cls : string) (db : DB)
  : M (Run Q) Compiler :=
  r ← get;
  conn ← lift (Query_get_compiler cls db (self r));
  mret {| compiler_class := cls; compiler_using := db; connection := conn |}.

Definition execute_sql {Q} {CL : CompilerLayer Q} (c : Compiler) (a : value)
  : M (Run Q) value :=
  r ← get;
  let e := {| compiler := compiler_class c; using_ := compiler_using c;
              query := self r; arg := a |} in
  modify (λ r, {| self := self r; executed := executed r ++ [e] |});;
  lift (Compiler_execute_sql (executed r) e).

(** Run a method of the object inside a [Run]. *)
Definition on_self {Q A} (m : M Q A) : M (Run Q) A :=
  λ r, let '(o, q) := m (self r) in
       (o, {| self := q; executed := executed r |}).

(** *** django.db.models.sql.constants *)

Class Constants := { GET_ITERATOR_CHUNK_SIZE : nat }.

(** *** Query.add_filter *)

(** [query.add_filter((lookup, ids))], a method of the base class: it
    works on the base attributes of the query it is called on. *)
Class FilterLayer {W : WhereClass} := {
  add_filter : string * list value → Query → Query
}.

(** Attribute assignments on a [Query]. *)
Section query_setters.
Context {W : WhereClass}.

Definition set_tables (v : list string) (q : Query) : Query :=
  {| model := model q; tables := v; where_ := where_ q; select := select q;
     select_fields := select_fields q; select_related := select_related q;
     distinct := distinct q; order_by := order_by q; attrs := attrs q |}.

Definition set_where (v : WhereNode) (q : Query) : Query :=
  {| model := model q; tables := tables q; where_ := v; select := select q;
     select_fields := select_fields q; select_related := select_related q;
     distinct := distinct q; order_by := order_by q; attrs := attrs q |}.

Definition set_select (v : list SelectItem) (q : Query) : Query :=
  {| model := model q; tables := tables q; where_ := where_ q; select := v;
     select_fields := select_fields q; select_related := select_related q;
     distinct := distinct q; order_by := order_by q; attrs := attrs q |}.

Definition set_select_fields (v : list (option Field)) (q : Query) : Query :=
  {| model := model q; tables := tables q; where_ := where_ q;
     select := select q; select_fields := v;
     select_related := select_related q;
     distinct := distinct q; order_by := order_by q; attrs := attrs q |}.

Definition set_select_related (v : SelectRelated) (q : Query) : Query :=
  {| model := model q; tables := tables q; where_ := where_ q;
     select := select q; select_fields := select_fields q;
     select_related := v;
     distinct := distinct q; order_by := order_by q; attrs := attrs q |}.

Definition set_distinct (v : bool) (q : Query) : Query :=
  {| model := model q; tables := tables q; where_ := where_ q;
     select := select q; select_fields := select_fields q;
     select_related := select_related q;
     distinct := v; order_by := order_by q; attrs := attrs q |}.

Definition set_order_by (v : list OrderTerm) (q : Query) : Query :=
  {| model := model q; tables := tables q; where_ := where_ q;
     select := select q; select_fields := select_fields q;
     select_related := select_related q;
     distinct := distinct q; order_by := v; attrs := attrs q |}.
End query_setters.

(** ** The module's classes *)

Definition __all__ : list string :=
  ["DeleteQuery"; "UpdateQuery"; "InsertQuery"; "DateQuery"; "AggregateQuery"].

(** The classes the module defines, in source order, and the [compiler]
    attribute of each. *)
Inductive QueryClass :=
| DeleteQuery_cls
| UpdateQuery_cls
| InsertQuery_cls
| DateQuery_cls
| AggregateQuery_cls.

Definition class_name (c : QueryClass) : string :=
  match c with
  | DeleteQuery_cls => "DeleteQuery"
  | UpdateQuery_cls => "UpdateQuery"
  | InsertQuery_cls => "InsertQuery"
  | DateQuery_cls => "DateQuery"
  | AggregateQuery_cls => "AggregateQuery"
  end.

Definition compiler_of (c : QueryClass) : string :=
  match c with
  | DeleteQuery_cls => "SQLDeleteCompiler"
  | UpdateQuery_cls => "SQLUpdateCompiler"
  | InsertQuery_cls => "SQLInsertCompiler"
  | DateQuery_cls => "SQLDateCompiler"
  | AggregateQuery_cls => "SQLAggregateCompiler"
  end.

Definition defined_classes : list QueryClass :=
  [DeleteQuery_cls; UpdateQuery_cls; InsertQuery_cls; DateQuery_cls;
   AggregateQuery_cls].

(** The high-level operations the specification names, and the class that
    serves each. *)
Inductive Operation :=
| DeleteRows
| UpdateRows
| InsertRow
| ExtractDates
| ComputeAggregates.

Definition class_for (op : Operation) : QueryClass :=
  match op with
  | DeleteRows => DeleteQuery_cls
  | UpdateRows => UpdateQuery_cls
  | InsertRow => InsertQuery_cls
  | ExtractDates => DateQuery_cls
  | ComputeAggregates => AggregateQuery_cls
  end.

(** The classes of the two files: the five of
    django.db.models.sql.subqueries and, in django.contrib.gis,
    [GeoInsertQuery]. *)
Inductive SliceClass :=
| Subquery (c : QueryClass)
| GeoInsertQuery_cls.

Global Instance QueryClass_eq_dec : EqDecision QueryClass.
Proof. solve_decision. Defined.

Global Instance SliceClass_eq_dec : EqDecision SliceClass.
Proof. solve_decision. Defined.

Definition slice_class_name (c : SliceClass) : string :=
  match c with
  | Subquery c => class_name c
  | GeoInsertQuery_cls => "GeoInsertQuery"
  end.

(** The base class of the [class] statement; [None] stands for [Query],
    which is defined elsewhere. *)
Definition base_class (c : SliceClass) : option SliceClass :=
  match c with
  | Subquery _ => None
  | GeoInsertQuery_cls => Some (Subquery InsertQuery_cls)
  end.

(** The [compiler] attribute assigned in the class body, if any. *)
Definition own_compiler (c : SliceClass) : option string :=
  match c with
  | Subquery c => Some (compiler_of c)
  | GeoInsertQuery_cls => None
  end.

(** [cls.compiler]: the attribute of the class or, failing that, of its
    base class. *)
Definition compiler_attr (c : SliceClass) : option string :=
  match own_compiler c with
  | Some s => Some s
  | None => base_class c ≫= own_compiler
  end.

(** The methods defined in each class body. *)
Definition own_methods (c : SliceClass) : list string :=
  match c with
  | Subquery DeleteQuery_cls =>
      ["do_query"; "delete_batch_related"; "delete_batch"]
  | Subquery UpdateQuery_cls =>
      ["__init__"; "_setup_query"; "clone"; "clear_related";
       "add_update_values"; "add_update_fields"; "add_related_update";
       "get_related_updates"]
  | Subquery InsertQuery_cls => ["__init__"; "clone"; "insert_values"]
  | Subquery DateQuery_cls => ["add_date_select"]
  | Subquery AggregateQuery_cls => ["add_subquery"]
  | GeoInsertQuery_cls => ["insert_values"]
  end.

(** The method through which each operation enters the layer. *)
Definition entry_method (op : Operation) : string :=
  match op with
  | DeleteRows => "delete_batch"
  | UpdateRows => "add_update_values"
  | InsertRow => "insert_values"
  | ExtractDates => "add_date_select"
  | ComputeAggregates => "add_subquery"
  end.

(** A class serves an operation when its body defines the operation's
    entry method. *)
Definition serves (c : SliceClass) (op : Operation) : Prop :=
  entry_method op ∈ own_methods c.

Global Instance serves_dec c op : Decision (serves c op).
Proof. unfold serves. apply _. Defined.

(** *** class DeleteQuery(Query) *)

Module DeleteQuery.
Section methods.
Context {W : WhereClass} {ML : MetaLayer} {K : Constants}
        {CD : CompilerLayer Query}.

(** [DeleteQuery] adds no attribute to [Query]. *)
Definition t := Query.

Definition do_query (table : string) (w : WhereNode) (db : DB)
  : M (Run t) unit :=
  on_self (modify (set_tables [table]));;
  on_self (modify (set_where w));;
  c ← get_compiler (compiler_of DeleteQuery_cls) db;
  execute_sql c VNone;;
  mret tt.

Definition delete_batch_related (pk_list : list value) (db : DB)
  : M (Run t) unit :=
  r ← get;
  let cls := model (self r) in
  for_each (get_all_related_many_to_many_objects cls) (λ field,
    if negb (generic field) then
      offsets ← range 0 (length pk_list) GET_ITERATOR_CHUNK_SIZE;
      for_each offsets (λ offset,
        let w := where_class in
        let w := where_add w
          (Leaf {| c_alias := None; c_col := m2m_reverse_name field;
                   c_field := field |}
                "in"
                (Many (slice pk_list offset
                         (offset + GET_ITERATOR_CHUNK_SIZE))))
          AND in
        do_query (m2m_db_table field) w db)
    else mret tt);;
  for_each (many_to_many cls) (λ f,
    let w1 := where_class in
    let w1 :=
      if generic f then
        let field := content_type_field f in
        where_add w1
          (Leaf {| c_alias := None; c_col := column field;
                   c_field := field |}
                "exact" (One (content_type_id cls)))
          AND
      else w1 in
    offsets ← range 0 (length pk_list) GET_ITERATOR_CHUNK_SIZE;
    for_each offsets (λ offset,
      let w := where_class in
      let w := where_add w
        (Leaf {| c_alias := None; c_col := m2m_column_name f;
                 c_field := f |}
              "in"
              (Many (slice pk_list offset
                       (offset + GET_ITERATOR_CHUNK_SIZE))))
        AND in
      let w := if where_bool w1 then where_add w (Subtree w1) AND else w in
      do_query (m2m_db_table f) w db)).

Definition delete_batch (pk_list : list value) (db : DB)
  : M (Run t) unit :=
  offsets ← range 0 (length pk_list) GET_ITERATOR_CHUNK_SIZE;
  for_each offsets (λ offset,
    let w := where_class in
    r ← get;
    let field := pk (model (self r)) in
    let w := where_add w
      (Leaf {| c_alias := None; c_col := column field; c_field := field |}
            "in"
            (Many (slice pk_list offset
                     (offset + GET_ITERATOR_CHUNK_SIZE))))
      AND in
    r ← get;
    do_query (db_table (model (self r))) w db).
End methods.
End DeleteQuery.

(** *** class UpdateQuery(Query) *)

Module UpdateQuery.

(** A (field, model, value) triple of an update. *)
Definition triple : Type := Field * option Model * value.

Record t {W : WhereClass} := {
  base : Query;
  values : list triple;
  related_ids : option (list value);
  related_updates : gmap Model (list triple)
}.

Section methods.
Context {W : WhereClass} {ML : MetaLayer} {K : Constants}
        {CU : CompilerLayer t}.

Definition set_base (v : Query) (q : t) : t :=
  {| base := v; values := values q; related_ids := related_ids q;
     related_updates := related_updates q |}.

Definition set_values (v : list triple) (q : t) : t :=
  {| base := base q; values := v; related_ids := related_ids q;
     related_updates := related_updates q |}.

Definition set_related_updates (v : gmap Model (list triple)) (q : t) : t :=
  {| base := base q; values := values q; related_ids := related_ids q;
     related_updates := v |}.

Definition clear_related (related_field : Field) (pk_list : list value)
    (db : DB) : M (Run t) unit :=
  offsets ← range 0 (length pk_list) GET_ITERATOR_CHUNK_SIZE;
  for_each offsets (λ offset,
    on_self (modify (λ q, set_base (set_where where_class (base q)) q));;
    r ← get;
    let f := pk (model (base (self r))) in
    on_self (modify (λ q,
      set_base
        (set_where
           (where_add (where_ (base q))
              (Leaf {| c_alias := None; c_col := column f; c_field := f |}
                    "in"
                    (Many (slice pk_list offset
                             (offset + GET_ITERATOR_CHUNK_SIZE))))
              AND)
           (base q))
        q));;
    on_self (modify (set_values [(related_field, None, VNone)]));;
    c ← get_compiler (compiler_of UpdateQuery_cls) db;
    execute_sql c VNone;;
    mret tt).

Definition add_update_fields (values_seq : list triple) : M t unit :=
  modify (λ q, set_values (values q ++ values_seq) q).

(** The [try] branch appends to the list stored under [model]; a KeyError
    stores a new one-element list. *)
Definition add_related_update (model : Model) (field : Field) (val : value)
  : M t unit :=
  modify (λ q,
    match related_updates q !! model with
    | Some l =>
        set_related_updates
          (<[model := l ++ [(field, None, val)]]> (related_updates q)) q
    | None =>
        set_related_updates
          (<[model := [(field, None, val)]]> (related_updates q)) q
    end).

(** The loop of [add_update_values] over [values.iteritems()], with the
    local list [values_seq]. *)
Fixpoint add_update_values_loop (items : list (string * value))
    (values_seq : list triple) : M t (list triple) :=
  match items with
  | [] => mret values_seq
  | (name, val) :: rest =>
      q ← get;
      let cls := model (base q) in
      '(field, model, direct, m2m) ← lift (get_field_by_name cls name);
      if negb direct || m2m then raise (FieldError field)
      else
        match model with
        | Some m =>
            add_related_update m field val;;
            add_update_values_loop rest values_seq
        | None =>
            add_update_values_loop rest (values_seq ++ [(field, model, val)])
        end
  end.

(** [values] lists the items of the dictionary in iteration order. *)
Definition add_update_values (values : list (string * value)) : M t unit :=
  values_seq ← add_update_values_loop values [];
  add_update_fields values_seq.
End methods.

Section related.
Context {W : WhereClass} {QB : QueryBase} {FL : FilterLayer}.

(** [_setup_query] on an object whose base attributes are [b];
    [existing] is its [related_updates] attribute when it has one
    ([hasattr(self, 'related_updates')]). *)
Definition _setup_query (b : Query)
    (existing : option (gmap Model (list triple))) : t :=
  {| base := b; values := []; related_ids := None;
     related_updates := default ∅ existing |}.

(** [UpdateQuery(model)]: the base constructor, then [_setup_query] on an
    object that has no [related_updates] yet. *)
Definition init (model : Model) : t :=
  _setup_query (Query_init model) None.

(** One iteration of the loop of [get_related_updates]: the query built for
    the item [(model, values)] of [related_updates].  [related_ids] is
    false when it is [None] or empty. *)
Definition related_update_query (q : t) (item : Model * list triple) : t :=
  let query := init item.1 in
  let query := set_values item.2 query in
  match related_ids q with
  | Some (id :: ids) =>
      set_base (add_filter ("pk__in", id :: ids) (base query)) query
  | _ => query
  end.

(** [related_updates.iteritems()] is the list of the map's items; a
    dictionary is false when it has no item. *)
Definition get_related_updates (q : t) : list t :=
  if decide (size (related_updates q) = 0) then []
  else related_update_query q <$> map_to_list (related_updates q).
End related.
End UpdateQuery.

(** *** class InsertQuery(Query) *)

Module InsertQuery.

(** [values] holds placeholders (strings) or, with [raw_values], the raw
    values themselves; [params] is a tuple. *)
Record t {W : WhereClass} := {
  base : Query;
  columns : list string;
  values : list value;
  params : list value;
  return_id : bool
}.

Section methods.
Context {W : WhereClass}.

Definition set_columns (v : list string) (q : t) : t :=
  {| base := base q; columns := v; values := values q; params := params q;
     return_id := return_id q |}.

Definition set_values (v : list value) (q : t) : t :=
  {| base := base q; columns := columns q; values := v; params := params q;
     return_id := return_id q |}.

Definition set_params (v : list value) (q : t) : t :=
  {| base := base q; columns := columns q; values := values q; params := v;
     return_id := return_id q |}.

(** [InsertQuery.__init__], after the base class has built [b]. *)
Definition init (b : Query) : t :=
  {| base := b; columns := []; values := []; params := [];
     return_id := false |}.

(** The placeholder of one pair. *)
Definition placeholder_of (field : Field) (val : value) (conn : Connection)
  : string :=
  match get_placeholder field with
  | Some g => g val conn
  | None => "%s"
  end.

Fixpoint insert_values_loop (items : list (Field * value))
    (conn : Connection) (placeholders : list string) (vals : list value)
  : M t (list string * list value) :=
  match items with
  | [] => mret (placeholders, vals)
  | (field, val) :: rest =>
      let placeholders := placeholders ++ [placeholder_of field val conn] in
      modify (λ q, set_columns (columns q ++ [column field]) q);;
      insert_values_loop rest conn placeholders (vals ++ [val])
  end.

Definition insert_values (items : list (Field * value)) (conn : Connection)
    (raw_values : bool) : M t unit :=
  '(placeholders, vals) ← insert_values_loop items conn [] [];
  if raw_values then
    modify (λ q, set_values (values q ++ vals) q)
  else
    modify (λ q, set_params (params q ++ vals) q);;
    modify (λ q, set_values (values q ++ (VStr <$> placeholders)) q).
End methods.
End InsertQuery.

(** *** class GeoInsertQuery(InsertQuery), django.contrib.gis *)

Module GeoInsertQuery.
Section methods.
Context {W : WhereClass} {QB : QueryBase} {CI : CompilerLayer InsertQuery.t}.

Definition t := InsertQuery.t.

Fixpoint insert_values_loop (items : list (Field * value))
    (conn : Connection) (placeholders : list string) (vals : list value)
  : M t (list string * list value) :=
  match items with
  | [] => mret (placeholders, vals)
  | (field, val) :: rest =>
      let placeholders :=
        placeholders ++ [InsertQuery.placeholder_of field val conn] in
      modify (λ q,
        InsertQuery.set_columns (InsertQuery.columns q ++ [column field]) q);;
      match last placeholders with
      | Some p =>
          if decide (p = "NULL")
          then insert_values_loop rest conn placeholders vals
          else insert_values_loop rest conn placeholders (vals ++ [val])
      | None => raise IndexError
      end
  end.

Definition insert_values (items : list (Field * value)) (conn : Connection)
    (raw_values : bool) : M t unit :=
  '(placeholders, vals) ← insert_values_loop items conn [] [];
  if raw_values then
    modify (λ q, InsertQuery.set_values (InsertQuery.values q ++ vals) q)
  else
    modify (λ q, InsertQuery.set_params (InsertQuery.params q ++ vals) q);;
    modify (λ q,
      InsertQuery.set_values
        (InsertQuery.values q ++ (VStr <$> placeholders)) q).
End methods.
End GeoInsertQuery.

(** [insert_query] of django.contrib.gis.db.models.sql.subqueries.  The
    compiler is created before [insert_values] runs and keeps a reference
    to the query, so [execute_sql] sees the query as [insert_values] left
    it. *)
Definition insert_query {W : WhereClass} {QB : QueryBase}
    {CI : CompilerLayer InsertQuery.t}
    (model : Model) (values : list (Field * value)) (return_id : bool)
    (raw_values : bool) (db : DB)
  : outcome value * Run InsertQuery.t :=
  let query := InsertQuery.init (Query_init model) in
  (compiler ← get_compiler (compiler_of InsertQuery_cls) db;
   on_self (GeoInsertQuery.insert_values values (connection compiler)
              raw_values);;
   execute_sql compiler (VBool return_id))
  {| self := query; executed := [] |}.

(** *** class DateQuery(Query) *)

Module DateQuery.
Section methods.
Context {W : WhereClass} {QB : QueryBase}.

(** [DateQuery] adds no attribute to [Query]. *)
Definition t := Query.

(** [l[-1]] *)
Definition last_item {S A} (l : list A) : M S A :=
  match last l with
  | Some a => mret a
  | None => raise IndexError
  end.

(** A base-class method that rewrites the query and returns a value. *)
Definition call {A} (f : t → A * t) : M t A :=
  λ q, let '(a, q') := f q in (Returned a, q').

Definition call_setup_joins (names : list string) (opts : Model)
    (alias : string) (allow_many : bool) : M t JoinResult :=
  λ q, match setup_joins names opts alias allow_many q with
       | (inl e, q') => (Raised (Foreign e), q')
       | (inr r, q') => (Returned r, q')
       end.

Definition add_date_select (field : Field) (lookup_type : string)
    (order : value) : M t unit :=
  q ← get;
  let opts := get_meta q in
  initial ← call get_initial_alias;
  result ← call_setup_joins [name field] opts initial false;
  alias ← last_item (joins result);
  let select :=
    SelDate {| col := (alias, column field); lookup_type := lookup_type |} in
  modify (set_select [select]);;
  modify (set_select_fields [None]);;
  modify (set_select_related (SR false));;
  modify (set_extra_mask []);;
  modify (set_distinct true);;
  modify (set_order_by
    (if decide (order = VStr "ASC") then [ByPos 1] else [ByPos (-1)])).
End methods.
End DateQuery.

(** *** class AggregateQuery(Query) *)

(** [query.get_compiler(using).as_sql(with_col_aliases=...)] for the inner
    query of an aggregate: the SQL text and the parameters. *)
Class InnerCompiler (I : Type) := {
  as_sql : I → DB → bool → string * list value
}.

Module AggregateQuery.

(** [subquery] and [sub_params] exist only once [add_subquery] has
    assigned them: [None] is an absent attribute. *)
Record t {W : WhereClass} := {
  base : Query;
  subquery : option string;
  sub_params : option (list value)
}.

Section methods.
Context {W : WhereClass} {I : Type} {IC : InnerCompiler I}.

Definition set_subquery (v : string) (q : t) : t :=
  {| base := base q; subquery := Some v; sub_params := sub_params q |}.

Definition set_sub_params (v : list value) (q : t) : t :=
  {| base := base q; subquery := subquery q; sub_params := Some v |}.

Definition add_subquery (query : I) (db : DB) : M t unit :=
  let '(sql, params) := as_sql query db true in
  modify (set_subquery sql);;
  modify (set_sub_params params).
End methods.
End AggregateQuery.

(** *** The entry method of each class

    What a class of the two files does for an operation: the method of its
    own body through which the operation enters the layer, if the body has
    one.  The signature depends on the operation. *)
Definition entry_type {W : WhereClass} (I : Type) (op : Operation) : Type :=
  match op with
  | DeleteRows => list value → DB → M (Run Query) unit
  | UpdateRows => list (string * value) → M UpdateQuery.t unit
  | InsertRow =>
      list (Field * value) → Connection → bool → M InsertQuery.t unit
  | ExtractDates => Field → string → value → M Query unit
  | ComputeAggregates => I → DB → M AggregateQuery.t unit
  end.

Definition entry {W : WhereClass} {ML : MetaLayer} {K : Constants}
    {QB : QueryBase} {CD : CompilerLayer Query} {I : Type}
    {IC : InnerCompiler I} (c : SliceClass) (op : Operation)
  : option (entry_type I op) :=
  match c, op return option (entry_type I op) with
  | Subquery DeleteQuery_cls, DeleteRows => Some DeleteQuery.delete_batch
  | Subquery UpdateQuery_cls, UpdateRows =>
      Some UpdateQuery.add_update_values
  | Subquery InsertQuery_cls, InsertRow => Some InsertQuery.insert_values
  | GeoInsertQuery_cls, InsertRow => Some GeoInsertQuery.insert_values
  | Subquery DateQuery_cls, ExtractDates => Some DateQuery.add_date_select
  | Subquery AggregateQuery_cls, ComputeAggregates =>
      Some AggregateQuery.add_subquery
  | _, _ => None
  end.

(** ** A sample schema

    Multi-table inheritance: [Restaurant] extends [Place].  [serves_pizza]
    is a local field, [name] lives on the ancestor, [tags] is many-to-many
    and [waiter] is the reverse side of a foreign key.  The collaborators
    are instantiated in the simplest way that fits their interfaces. *)

Module Sample.

(** A query as the base constructor leaves it, for any where class. *)
Definition empty_query {W : WhereClass} (m : Model) : Query :=
  {| model := m; tables := []; where_ := where_class; select := [];
     select_fields := []; select_related := SR false; distinct := false;
     order_by := []; attrs := ∅ |}.

Definition restaurant_update {W : WhereClass} : UpdateQuery.t :=
  {| UpdateQuery.base := empty_query "Restaurant";
     UpdateQuery.values := [];
     UpdateQuery.related_ids := None;
     UpdateQuery.related_updates := ∅ |}.

Local Unset Elimination Schemes.
Inductive Tree :=
| TNode (connector : Connector) (children : list (WhereChild Tree)).
Local Set Elimination Schemes.

Definition tree_add (n : Tree) (c : WhereChild Tree) (conn : Connector)
  : Tree :=
  match n with TNode _ children => TNode conn (children ++ [c]) end.

Definition tree_bool (n : Tree) : bool :=
  match n with TNode _ [] => false | TNode _ (_ :: _) => true end.

#[export] Instance tree_where : WhereClass := {|
  WhereNode := Tree;
  where_class := TNode AND [];
  where_add := tree_add;
  where_bool := tree_bool
|}.

Definition plain_field (n : string) : Field :=
  {| name := n; column := n; get_placeholder := None;
     m2m_db_table := ""; m2m_column_name := ""; m2m_reverse_name := "";
     generic := false |}.

(** A geometry column: [NULL] for a missing value, a conversion call
    otherwise. *)
Definition geo_field (n : string) : Field :=
  {| name := n; column := n;
     get_placeholder :=
       Some (λ v _, match v with
                    | VNone => "NULL"
                    | _ => "GeomFromText(%s)"
                    end);
     m2m_db_table := ""; m2m_column_name := ""; m2m_reverse_name := "";
     generic := false |}.

Definition m2m_field (n table col rev : string) (g : bool) : Field :=
  {| name := n; column := n; get_placeholder := None;
     m2m_db_table := table; m2m_column_name := col;
     m2m_reverse_name := rev; generic := g |}.

Definition tags : Field :=
  m2m_field "tags" "restaurant_tags" "restaurant_id" "tag_id" false.

Definition lookup_field (m : Model) (n : string)
  : string + (Field * option Model * bool * bool) :=
  if decide (n = "serves_pizza") then
    inr (plain_field n, None, true, false)
  else if decide (n = "name") then
    inr (plain_field n, Some "Place", true, false)
  else if decide (n = "tags") then
    inr (tags, None, true, true)
  else if decide (n = "waiter") then
    inr (plain_field n, None, false, false)
  else inl "FieldDoesNotExist".

#[export] Instance meta : MetaLayer := {|
  pk := λ _, plain_field "id";
  db_table := λ m, m;
  get_field_by_name := lookup_field;
  get_all_related_many_to_many_objects := λ _, [];
  many_to_many := λ _, [tags];
  content_type_field := λ _, plain_field "content_type_id";
  content_type_id := λ _, VInt 7
|}.

#[export] Instance constants : Constants :=
  {| GET_ITERATOR_CHUNK_SIZE := 100 |}.

#[export] Instance query_base : QueryBase := {|
  Query_init := empty_query;
  get_meta := model;
  get_initial_alias := λ q,
    (model q, if tables q is [] then set_tables [model q] q else q);
  setup_joins := λ names opts alias _ q, (inr {| joins := [alias] |}, q);
  set_extra_mask := λ names q,
    {| model := model q; tables := tables q; where_ := where_ q;
       select := select q; select_fields := select_fields q;
       select_related := select_related q; distinct := distinct q;
       order_by := order_by q;
       attrs := <["_extra_select_cache" := VNone]> (attrs q) |}
|}.

(** A base class whose [setup_joins] cannot resolve the name. *)
Definition unresolved_joins : QueryBase := {|
  Query_init := empty_query;
  get_meta := model;
  get_initial_alias := λ q, (model q, set_tables [model q] q);
  setup_joins := λ names opts alias _ q, (inl "FieldError", q);
  set_extra_mask := λ names q, q
|}.

(** [get_compiler] needs an alias: without one it raises. *)
#[export] Instance compilers (Q : Type) : CompilerLayer Q := {|
  Query_get_compiler := λ cls db q,
    match db with
    | None => inl "ValueError"
    | Some alias => inr {| conn_alias := db |}
    end;
  Compiler_execute_sql := λ _ _, inr VNone
|}.

(** Compilers that are all bound to the connection [conn]. *)
Definition compilers_on (conn : Connection) (Q : Type) : CompilerLayer Q := {|
  Query_get_compiler := λ cls db q, inr conn;
  Compiler_execute_sql := λ _ _, inr VNone
|}.

(** A geometry column whose conversion call depends on the backend. *)
Definition dialect_field (n : string) : Field :=
  {| name := n; column := n;
     get_placeholder :=
       Some (λ v conn,
               if decide (conn_alias conn = Some "postgis")
               then "ST_GeomFromEWKB(%s)" else "GeomFromText(%s)");
     m2m_db_table := ""; m2m_column_name := ""; m2m_reverse_name := "";
     generic := false |}.

#[export] Instance inner_sql : InnerCompiler Query := {|
  as_sql := λ q _ _, ("SELECT 1", [VInt 1])
|}.

#[export] Instance filters : FilterLayer := {|
  add_filter := λ '(lookup, ids) q,
    set_where
      (where_add (where_ q)
         (Leaf {| c_alias := None; c_col := lookup;
                  c_field := plain_field "id" |}
               "in" (Many ids))
         AND)
      q
|}.

End Sample.

(** ** Vocabulary of the statements *)

Section vocabulary.
Context {W : WhereClass} {ML : MetaLayer}.

(** Two queries that differ at most in [tables] and [where]. *)
Definition same_but_tables_where (q q' : Query) : Prop :=
  model q' = model q ∧ select q' = select q ∧
  select_fields q' = select_fields q ∧
  select_related q' = select_related q ∧ distinct q' = distinct q ∧
  order_by q' = order_by q ∧ attrs q' = attrs q.

(** The where clause [col IN chunk] on a fresh node, as the batch loops
    build it for the field [f]. *)
Definition in_clause (col : string) (f : Field) (chunk : list value)
  : WhereNode :=
  where_add where_class
    (Leaf {| c_alias := None; c_col := col; c_field := f |} "in"
          (Many chunk))
    AND.

(** The execution [delete_batch] issues for one chunk of primary keys. *)
Definition delete_of (q : Query) (db : DB) (chunk : list value)
  : Execution Query :=
  let f := pk (model q) in
  {| compiler := "SQLDeleteCompiler"; using_ := db;
     query := set_where (in_clause (column f) f chunk)
                (set_tables [db_table (model q)] q);
     arg := VNone |}.

(** The execution [clear_related] issues for one chunk. *)
Definition clear_of (q : UpdateQuery.t) (related_field : Field) (db : DB)
    (chunk : list value) : Execution UpdateQuery.t :=
  let f := pk (model (UpdateQuery.base q)) in
  {| compiler := "SQLUpdateCompiler"; using_ := db;
     query :=
       UpdateQuery.set_values [(related_field, None, VNone)]
         (UpdateQuery.set_base
            (set_where (in_clause (column f) f chunk) (UpdateQuery.base q))
            q);
     arg := VNone |}.

(** Two update queries that differ at most in [where] and [values]. *)
Definition same_but_where_values (q q' : UpdateQuery.t) : Prop :=
  same_but_tables_where (UpdateQuery.base q) (UpdateQuery.base q') ∧
  tables (UpdateQuery.base q') = tables (UpdateQuery.base q) ∧
  UpdateQuery.related_ids q' = UpdateQuery.related_ids q ∧
  UpdateQuery.related_updates q' = UpdateQuery.related_updates q.

(** The name resolves to a field. *)
Definition resolves (cls : Model) (name : string) : Prop :=
  ∃ info, get_field_by_name cls name = inr info.

(** The name resolves to a non-direct relation or to a many-to-many
    field. *)
Definition not_updatable (cls : Model) (name : string) : Prop :=
  ∃ field model direct m2m,
    get_field_by_name cls name = inr (field, model, direct, m2m) ∧
    (direct = false ∨ m2m = true).

(** [m'] keeps every list of [m], possibly with entries appended. *)
Definition extends_updates (m m' : gmap Model (list UpdateQuery.triple))
  : Prop :=
  ∀ k l, m !! k = Some l → ∃ l', m' !! k = Some (l ++ l').

(** The placeholders and the column names of a sequence of pairs. *)
Definition placeholders_of (conn : Connection)
    (items : list (Field * value)) : list string :=
  (λ item, InsertQuery.placeholder_of item.1 item.2 conn) <$> items.

Definition columns_of (items : list (Field * value)) : list string :=
  (λ item, column item.1) <$> items.

(** The pair's placeholder is not the literal [NULL]. *)
Definition not_null (conn : Connection) (item : Field * value) : Prop :=
  InsertQuery.placeholder_of item.1 item.2 conn ≠ "NULL".

Global Instance not_null_dec conn item : Decision (not_null conn item).
Proof. unfold not_null. apply _. Defined.

(** [get_compiler(using)] returns a compiler bound to [conn], whatever
    state the query is in, and the executions through it return. *)
Definition compiler_ready {Q} {CL : CompilerLayer Q} (cls : string)
    (db : DB) (conn : Connection) : Prop :=
  (∀ q, Query_get_compiler cls db q = inr conn) ∧
  ∀ before e, compiler e = cls → using_ e = db →
    ∃ v, Compiler_execute_sql before e = inr v.

(** [get_compiler(using)] raises [e], whatever state the query is in. *)
Definition compiler_unavailable {Q} {CL : CompilerLayer Q} (cls : string)
    (db : DB) (e : string) : Prop :=
  ∀ q, Query_get_compiler cls db q = inl e.

(** [e] is an exception that [get_compiler(using)] raised, or that
    [execute_sql] raised for an execution through that compiler. *)
Definition compiler_raised {Q} {CL : CompilerLayer Q} (cls : string)
    (db : DB) (e : exn) : Prop :=
  (∃ q e', Query_get_compiler cls db q = inl e' ∧ e = Foreign e') ∨
  (∃ before x e',
     compiler x = cls ∧ using_ x = db ∧
     Compiler_execute_sql before x = inl e' ∧ e = Foreign e').

(** A method that, when it raises, raises an exception in [P]. *)
Definition raises_only {S A} (P : exn → Prop) (m : M S A) : Prop :=
  ∀ s e, (m s).1 = Raised e → P e.

(** What a batch loop can raise: the ValueError of [range] for a zero chunk
    size, or what [get_compiler] or [execute_sql] raised. *)
Definition batch_error {Q} {CL : CompilerLayer Q} {K : Constants}
    (cls : string) (db : DB) (e : exn) : Prop :=
  (e = ValueError ∧ GET_ITERATOR_CHUNK_SIZE = 0) ∨ compiler_raised cls db e.

(** Two compiler layers that differ at most in the connections of the
    compilers they return. *)
Definition same_but_connection {Q} (CL1 CL2 : CompilerLayer Q) : Prop :=
  (∀ before e,
     Compiler_execute_sql (CompilerLayer := CL1) before e
     = Compiler_execute_sql (CompilerLayer := CL2) before e) ∧
  ∀ cls db q,
    match Query_get_compiler (CompilerLayer := CL1) cls db q,
          Query_get_compiler (CompilerLayer := CL2) cls db q with
    | inl e1, inl e2 => e1 = e2
    | inr _, inr _ => True
    | _, _ => False
    end.

(** The ceiling of [a / b]. *)
Definition ceil_div (a b : nat) : nat := (a + b - 1) / b.

(** The executions a method adds all satisfy [P], whether it returns or
    raises. *)
Definition logs_only {Q A} (P : Execution Q → Prop) (m : M (Run Q) A)
  : Prop :=
  ∀ r, ∃ new, executed (m r).2 = executed r ++ new ∧ Forall P new.

(** An execution through the compiler [cls] on the database [db] with
    argument [a]. *)
Definition via {Q} (cls : string) (db : DB) (a : value) (e : Execution Q)
  : Prop :=
  compiler e = cls ∧ using_ e = db ∧ arg e = a.
End vocabulary.

(** ** Vocabulary of the further properties *)

Section further_vocabulary.
Context {W : WhereClass} {ML : MetaLayer} {K : Constants}.

(** An execution by the delete compiler of [q] with [tables] and [where]
    set, as [do_query] issues it. *)
Definition delete_exec (q : Query) (db : DB) (table : string)
    (w : WhereNode) : Execution Query :=
  {| compiler := "SQLDeleteCompiler"; using_ := db;
     query := set_where w (set_tables [table] q); arg := VNone |}.

(** The executions of the first loop of [delete_batch_related]: for each
    related field that is not a generic relation, one per chunk. *)
Definition related_deletes (q : Query) (db : DB) (pk_list : list value)
  : list (Execution Query) :=
  concat
    ((λ field,
        (λ chunk,
           delete_exec q db (m2m_db_table field)
             (in_clause (m2m_reverse_name field) field chunk))
          <$> chunks GET_ITERATOR_CHUNK_SIZE pk_list)
       <$> filter (λ field, generic field = false)
             (get_all_related_many_to_many_objects (model q))).

(** The where clause of the second loop for the field [f] and one chunk. *)
Definition m2m_where (cls : Model) (f : Field) (chunk : list value)
  : WhereNode :=
  let w1 :=
    if generic f then
      let field := content_type_field f in
      where_add where_class
        (Leaf {| c_alias := None; c_col := column field; c_field := field |}
              "exact" (One (content_type_id cls)))
        AND
    else where_class in
  let w := in_clause (m2m_column_name f) f chunk in
  if where_bool w1 then where_add w (Subtree w1) AND else w.

(** The executions of the second loop of [delete_batch_related]. *)
Definition m2m_deletes (q : Query) (db : DB) (pk_list : list value)
  : list (Execution Query) :=
  concat
    ((λ f,
        (λ chunk,
           delete_exec q db (m2m_db_table f) (m2m_where (model q) f chunk))
          <$> chunks GET_ITERATOR_CHUNK_SIZE pk_list)
       <$> many_to_many (model q)).

(** The triple a dictionary item adds to [values]: the name resolves to a
    field of the model itself. *)
Definition local_triple (cls : Model) (item : string * value)
  : option UpdateQuery.triple :=
  match get_field_by_name cls item.1 with
  | inr (field, None, _, _) => Some (field, None, item.2)
  | _ => None
  end.

(** The triple a dictionary item adds under the ancestor model [m]. *)
Definition ancestor_triple (cls m : Model) (item : string * value)
  : option UpdateQuery.triple :=
  match get_field_by_name cls item.1 with
  | inr (field, Some m', _, _) =>
      if decide (m' = m) then Some (field, None, item.2) else None
  | _ => None
  end.

(** The ancestor model a dictionary item belongs to, if any. *)
Definition ancestor_of (cls : Model) (item : string * value)
  : option Model :=
  match get_field_by_name cls item.1 with
  | inr (_, Some m, _, _) => Some m
  | _ => None
  end.

(** A dictionary entry after [ts] has been appended to it: untouched when
    there is nothing to append, created when it was missing. *)
Definition grow (o : option (list UpdateQuery.triple))
    (ts : list UpdateQuery.triple) : option (list UpdateQuery.triple) :=
  match ts with
  | [] => o
  | _ :: _ => Some (default [] o ++ ts)
  end.

(** The item is accepted by [add_update_values]. *)
Definition updatable (cls : Model) (item : string * value) : Prop :=
  resolves cls item.1 ∧ ¬ not_updatable cls item.1.
End further_vocabulary.

(** * Properties *)

(** ** The method monad *)

Lemma bind_returned {S A B} (m : M S A) (k : A → M S B) s a s' :
  m s = (Returned a, s') → (m ≫= k) s = k a s'.
Proof. intros E. unfold mbind, M_bind. by rewrite E. Qed.

Lemma bind_raised_at {S A B} (m : M S A) (k : A → M S B) s e s' :
  m s = (Raised e, s') → (m ≫= k) s = (Raised e, s').
Proof. intros E. unfold mbind, M_bind. by rewrite E. Qed.

(** ** Offsets and chunks *)

Section chunking.
Context {A : Type}.
Implicit Types (l : list A) (n fuel start : nat).

Lemma slice_take_drop l start n :
  slice l start (start + n) = take n (drop start l).
Proof. unfold slice. f_equal. lia. Qed.

(** The slices at the offsets from [start] on rebuild the list from
    [start] on. *)
Lemma range_from_concat l n fuel start :
  0 < n → length l - start ≤ fuel →
  concat ((λ o, slice l o (o + n)) <$> range_from fuel start (length l) n)
  = drop start l.
Proof.
  intros Hn. revert start.
  induction fuel as [|fuel IH]; intros start Hfuel; simpl.
  - symmetry. apply drop_ge. lia.
  - case_decide as Hlt; simpl.
    + rewrite IH by lia.
      rewrite slice_take_drop, <- drop_drop.
      apply take_drop.
    + symmetry. apply drop_ge. lia.
Qed.

Lemma range_from_length stop n fuel start :
  0 < n → stop - start ≤ fuel →
  length (range_from fuel start stop n) = (stop - start + n - 1) / n.
Proof.
  intros Hn. revert start.
  induction fuel as [|fuel IH]; intros start Hfuel; simpl.
  - replace (stop - start + n - 1) with (n - 1) by lia.
    symmetry. apply Nat.div_small. lia.
  - case_decide as Hlt; simpl.
    + rewrite IH by lia.
      destruct (decide (stop - start ≤ n)) as [Hle|Hgt].
      * replace (stop - (start + n) + n - 1) with (n - 1) by lia.
        rewrite Nat.div_small by lia.
        apply (Nat.div_unique _ _ 1 (stop - start - 1)); lia.
      * replace (stop - start + n - 1)
          with ((stop - (start + n) + n - 1) + 1 * n) by lia.
        rewrite Nat.div_add by lia. lia.
    + replace (stop - start + n - 1) with (n - 1) by lia.
      symmetry. apply Nat.div_small. lia.
Qed.

(** Every offset is a multiple of the step below the stop. *)
Lemma range_from_bound stop n fuel start o :
  o ∈ range_from fuel start stop n → start ≤ o < stop.
Proof.
  revert start. induction fuel as [|fuel IH]; intros start; simpl.
  - by intros ?%elem_of_nil.
  - case_decide; [|by intros ?%elem_of_nil].
    intros [->|Hin%IH]%elem_of_cons; lia.
Qed.

Lemma chunks_concat l n : 0 < n → concat (chunks n l) = l.
Proof.
  intros Hn. unfold chunks. rewrite range_from_concat by lia. apply drop_0.
Qed.

Lemma chunks_length l n :
  0 < n → length (chunks n l) = (length l + n - 1) / n.
Proof.
  intros Hn. unfold chunks.
  rewrite length_fmap, range_from_length by lia.
  f_equal. lia.
Qed.

Lemma chunks_size l n c : 0 < n → c ∈ chunks n l → 0 < length c ≤ n.
Proof.
  intros Hn. unfold chunks.
  intros (o & -> & Ho%range_from_bound)%list_elem_of_fmap.
  rewrite slice_take_drop, length_take, length_drop. lia.
Qed.

Lemma chunks_nil n : chunks n (@nil A) = [].
Proof. reflexivity. Qed.
End chunking.

(** ** get_compiler and execute_sql *)

(** [get_compiler] when the base method returns, and when it raises. *)
Lemma get_compiler_ready {Q} {CL : CompilerLayer Q} cls db conn (r : Run Q) :
  compiler_ready cls db conn →
  get_compiler cls db r
  = (Returned {| compiler_class := cls; compiler_using := db;
                 connection := conn |}, r).
Proof.
  intros [Hready _]. unfold get_compiler.
  rewrite (bind_returned _ _ r r r) by reflexivity.
  rewrite (Hready (self r)). reflexivity.
Qed.

(** [execute_sql] through a compiler whose executions return: the
    execution is recorded and a value comes back. *)
Lemma execute_sql_ready {Q} {CL : CompilerLayer Q} cls db conn conn' a
    (r : Run Q) :
  compiler_ready cls db conn →
  ∃ v,
    Compiler_execute_sql (executed r)
      {| compiler := cls; using_ := db; query := self r; arg := a |}
    = inr v ∧
    execute_sql {| compiler_class := cls; compiler_using := db;
                   connection := conn' |} a r
    = (Returned v,
       {| self := self r;
          executed := executed r ++
            [{| compiler := cls; using_ := db; query := self r;
                arg := a |}] |}).
Proof.
  intros [_ Hexec].
  destruct (Hexec (executed r)
              {| compiler := cls; using_ := db; query := self r; arg := a |}
              eq_refl eq_refl) as [v Hv].
  exists v. split; [done|].
  unfold execute_sql, mbind, M_bind, get, modify. simpl. by rewrite Hv.
Qed.

Lemma get_compiler_returns {Q} {CL : CompilerLayer Q} cls db conn
    (r : Run Q) :
  Query_get_compiler cls db (self r) = inr conn →
  get_compiler cls db r
  = (Returned {| compiler_class := cls; compiler_using := db;
                 connection := conn |}, r).
Proof.
  intros Hget. unfold get_compiler.
  rewrite (bind_returned _ _ r r r) by reflexivity.
  rewrite Hget. reflexivity.
Qed.

Lemma get_compiler_fails {Q} {CL : CompilerLayer Q} cls db e (r : Run Q) :
  Query_get_compiler cls db (self r) = inl e →
  get_compiler cls db r = (Raised (Foreign e), r).
Proof.
  intros Hfail. unfold get_compiler.
  rewrite (bind_returned _ _ r r r) by reflexivity.
  rewrite Hfail. reflexivity.
Qed.

(** The two steps [get_compiler(using).execute_sql(a)] when the compiler is
    there and its execution returns. *)
Ltac execute_step conn Hready :=
  erewrite bind_returned by (by apply get_compiler_ready);
  match goal with
  | |- context [(execute_sql
                   {| compiler_class := ?cls; compiler_using := ?db;
                      connection := _ |} ?a ≫= _) ?s] =>
      let v := fresh "v" in
      let Hexec := fresh "Hexec" in
      destruct (execute_sql_ready cls db conn conn a s Hready)
        as (v & _ & Hexec);
      erewrite bind_returned by exact Hexec
  end.

(** ** DeleteQuery *)

Section delete_query.
Context {W : WhereClass} {ML : MetaLayer} {K : Constants}
        {CD : CompilerLayer Query}.

Lemma same_but_tables_where_refl q : same_but_tables_where q q.
Proof. by repeat split. Qed.

Lemma same_but_tables_where_set q q' t w :
  same_but_tables_where q q' →
  same_but_tables_where q (set_where w (set_tables t q')).
Proof. by intros (?&?&?&?&?&?&?); repeat split. Qed.

Lemma set_tables_where_same q q' t w :
  same_but_tables_where q q' →
  set_where w (set_tables t q') = set_where w (set_tables t q).
Proof.
  intros (?&?&?&?&?&?&?). destruct q, q'; simpl in *.
  unfold set_where, set_tables; simpl. by subst.
Qed.

(** What one call of [do_query] does when [get_compiler] returns. *)
Lemma do_query_run conn table w db r :
  compiler_ready "SQLDeleteCompiler" db conn →
  DeleteQuery.do_query table w db r =
  (Returned tt,
   let q' := set_where w (set_tables [table] (self r)) in
   {| self := q';
      executed := executed r ++
        [{| compiler := "SQLDeleteCompiler"; using_ := db; query := q';
            arg := VNone |}] |}).
Proof.
  intros Hready. unfold DeleteQuery.do_query.
  erewrite bind_returned by reflexivity.
  erewrite bind_returned by reflexivity.
  execute_step conn Hready. reflexivity.
Qed.

(** ... and when it raises: the two assignments have been made. *)
Lemma do_query_fails e table w db r :
  Query_get_compiler "SQLDeleteCompiler" db
    (set_where w (set_tables [table] (self r))) = inl e →
  DeleteQuery.do_query table w db r =
  (Raised (Foreign e),
   {| self := set_where w (set_tables [table] (self r));
      executed := executed r |}).
Proof.
  intros Hfail. unfold DeleteQuery.do_query.
  erewrite bind_returned by reflexivity.
  erewrite bind_returned by reflexivity.
  by erewrite bind_raised_at by (by apply get_compiler_fails).
Qed.

(** [do_query] whenever [get_compiler] returns: one execution, and the call
    ends as the execution does. *)
Lemma do_query_executes conn table w db r :
  let q' := set_where w (set_tables [table] (self r)) in
  let e := {| compiler := "SQLDeleteCompiler"; using_ := db; query := q';
              arg := VNone |} in
  Query_get_compiler "SQLDeleteCompiler" db q' = inr conn →
  DeleteQuery.do_query table w db r =
  (match Compiler_execute_sql (executed r) e with
   | inl err => Raised (Foreign err)
   | inr _ => Returned tt
   end,
   {| self := q'; executed := executed r ++ [e] |}).
Proof.
  intros q' e Hget. unfold DeleteQuery.do_query.
  erewrite bind_returned by reflexivity.
  erewrite bind_returned by reflexivity.
  erewrite bind_returned by (by apply get_compiler_returns).
  unfold execute_sql, mbind, M_bind, get, modify. simpl.
  fold q'. fold e. by destruct (Compiler_execute_sql (executed r) e).
Qed.

Lemma delete_of_same q q' db chunk :
  same_but_tables_where q q' → delete_of q' db chunk = delete_of q db chunk.
Proof.
  intros Hs. unfold delete_of.
  rewrite (set_tables_where_same q q') by done.
  destruct Hs as (-> & _). done.
Qed.

(** The loop of [delete_batch] over any list of offsets. *)
Lemma delete_batch_loop conn pk_list db q0 offsets r :
  compiler_ready "SQLDeleteCompiler" db conn →
  same_but_tables_where q0 (self r) →
  ∃ q',
    for_each offsets (λ offset,
      let w := where_class in
      r ← get;
      let field := pk (model (self r)) in
      let w := where_add w
        (Leaf {| c_alias := None; c_col := column field; c_field := field |}
              "in"
              (Many (slice pk_list offset
                       (offset + GET_ITERATOR_CHUNK_SIZE))))
        AND in
      r ← get;
      DeleteQuery.do_query (db_table (model (self r))) w db) r
    = (Returned tt,
       {| self := q';
          executed := executed r ++
            ((λ o, delete_of q0 db
                     (slice pk_list o (o + GET_ITERATOR_CHUNK_SIZE)))
               <$> offsets) |})
    ∧ same_but_tables_where q0 q'.
Proof.
  intros Hready. revert r. induction offsets as [|o offsets IH]; intros r Hs.
  - exists (self r). simpl. rewrite app_nil_r. by destruct r.
  - simpl for_each.
    set (e := delete_of (self r) db
                (slice pk_list o (o + GET_ITERATOR_CHUNK_SIZE))).
    set (r1 := {| self := query e; executed := executed r ++ [e] |}).
    destruct (IH r1) as (q' & Hrun & Hq').
    { by apply same_but_tables_where_set. }
    exists q'. split; [|done].
    rewrite (bind_returned _ _ r tt r1)
      by exact (do_query_run conn _ _ db r Hready).
    etrans; [exact Hrun|]. subst r1 e. simpl.
    rewrite <- app_assoc. simpl.
    by rewrite (delete_of_same q0 (self r)).
Qed.

Lemma delete_batch_run conn pk_list db r :
  compiler_ready "SQLDeleteCompiler" db conn →
  0 < GET_ITERATOR_CHUNK_SIZE →
  ∃ q',
    DeleteQuery.delete_batch pk_list db r
    = (Returned tt,
       {| self := q';
          executed := executed r ++
            (delete_of (self r) db
               <$> chunks GET_ITERATOR_CHUNK_SIZE pk_list) |})
    ∧ same_but_tables_where (self r) q'.
Proof.
  intros Hready Hn. unfold DeleteQuery.delete_batch, range.
  case_decide; [lia|].
  destruct (delete_batch_loop conn pk_list db (self r)
              (range_from (length pk_list - 0) 0 (length pk_list)
                 GET_ITERATOR_CHUNK_SIZE) r Hready) as (q' & Hrun & Hq').
  { apply same_but_tables_where_refl. }
  exists q'. split; [|done].
  erewrite bind_returned; [|reflexivity].
  etrans; [exact Hrun|]. unfold chunks. by rewrite <- list_fmap_compose.
Qed.
End delete_query.

(** ** UpdateQuery.clear_related *)

Section clear_related.
Context {W : WhereClass} {ML : MetaLayer} {K : Constants}
        {CU : CompilerLayer UpdateQuery.t}.

Lemma same_but_where_values_refl q : same_but_where_values q q.
Proof. by repeat split. Qed.

Lemma clear_of_same q q' rf db chunk :
  same_but_where_values q q' →
  clear_of q' rf db chunk = clear_of q rf db chunk.
Proof.
  intros ((Hm&?&?&?&?&?&?) & ? & ? & ?). unfold clear_of.
  rewrite Hm. f_equal.
  destruct q as [b ? ? ?], q' as [b' ? ? ?]; simpl in *.
  destruct b, b'; simpl in *.
  unfold UpdateQuery.set_values, UpdateQuery.set_base, set_where; simpl.
  by subst.
Qed.

Lemma same_but_where_values_clear q q' rf db chunk :
  same_but_where_values q q' →
  same_but_where_values q (query (clear_of q' rf db chunk)).
Proof. by intros ((?&?&?&?&?&?&?) & ? & ? & ?); repeat split. Qed.

Lemma clear_related_loop conn rf pk_list db q0 offsets r :
  compiler_ready "SQLUpdateCompiler" db conn →
  same_but_where_values q0 (self r) →
  ∃ q',
    for_each offsets (λ offset,
      on_self (modify (λ q,
        UpdateQuery.set_base
          (set_where where_class (UpdateQuery.base q)) q));;
      r ← get;
      let f := pk (model (UpdateQuery.base (self r))) in
      on_self (modify (λ q,
        UpdateQuery.set_base
          (set_where
             (where_add (where_ (UpdateQuery.base q))
                (Leaf {| c_alias := None; c_col := column f; c_field := f |}
                      "in"
                      (Many (slice pk_list offset
                               (offset + GET_ITERATOR_CHUNK_SIZE))))
                AND)
             (UpdateQuery.base q))
          q));;
      on_self (modify (UpdateQuery.set_values [(rf, None, VNone)]));;
      c ← get_compiler (compiler_of UpdateQuery_cls) db;
      execute_sql c VNone;;
      mret tt) r
    = (Returned tt,
       {| self := q';
          executed := executed r ++
            ((λ o, clear_of q0 rf db
                     (slice pk_list o (o + GET_ITERATOR_CHUNK_SIZE)))
               <$> offsets) |})
    ∧ same_but_where_values q0 q'.
Proof.
  intros Hready. revert r.
  induction offsets as [|o offsets IH]; intros r Hs.
  - exists (self r). simpl. rewrite app_nil_r. by destruct r.
  - simpl for_each.
    set (e := clear_of (self r) rf db
                (slice pk_list o (o + GET_ITERATOR_CHUNK_SIZE))).
    set (r1 := {| self := query e; executed := executed r ++ [e] |}).
    destruct (IH r1) as (q' & Hrun & Hq').
    { by apply same_but_where_values_clear. }
    exists q'. split; [|done].
    rewrite (bind_returned _ _ r tt r1).
    2: { repeat (erewrite bind_returned by reflexivity).
         execute_step conn Hready. reflexivity. }
    etrans; [exact Hrun|]. subst r1 e. simpl.
    rewrite <- app_assoc. simpl.
    by rewrite (clear_of_same q0 (self r)).
Qed.

Lemma clear_related_run conn rf pk_list db r :
  compiler_ready "SQLUpdateCompiler" db conn →
  0 < GET_ITERATOR_CHUNK_SIZE →
  ∃ q',
    UpdateQuery.clear_related rf pk_list db r
    = (Returned tt,
       {| self := q';
          executed := executed r ++
            (clear_of (self r) rf db
               <$> chunks GET_ITERATOR_CHUNK_SIZE pk_list) |})
    ∧ same_but_where_values (self r) q'.
Proof.
  intros Hready Hn. unfold UpdateQuery.clear_related, range.
  case_decide; [lia|].
  destruct (clear_related_loop conn rf pk_list db (self r)
              (range_from (length pk_list - 0) 0 (length pk_list)
                 GET_ITERATOR_CHUNK_SIZE) r Hready) as (q' & Hrun & Hq').
  { apply same_but_where_values_refl. }
  exists q'. split; [|done].
  erewrite bind_returned; [|reflexivity].
  etrans; [exact Hrun|]. unfold chunks. by rewrite <- list_fmap_compose.
Qed.
End clear_related.

(** ** Execution goes through the compilers only *)

Section logs.
Context {Q : Type} (P : Execution Q → Prop).

Lemma logs_only_ret {A} (a : A) : logs_only P (mret a).
Proof. intros r. exists []. by rewrite app_nil_r. Qed.

Lemma logs_only_raise {A} e : logs_only P (raise e : M (Run Q) A).
Proof. intros r. exists []. by rewrite app_nil_r. Qed.

Lemma logs_only_get : logs_only P get.
Proof. intros r. exists []. by rewrite app_nil_r. Qed.

Lemma logs_only_on_self {A} (m : M Q A) : logs_only P (on_self m).
Proof.
  intros r. exists []. unfold on_self.
  destruct (m (self r)). by rewrite app_nil_r.
Qed.

Lemma logs_only_bind {A B} (m : M (Run Q) A) (k : A → M (Run Q) B) :
  logs_only P m → (∀ a, logs_only P (k a)) → logs_only P (m ≫= k).
Proof.
  intros Hm Hk r. destruct (Hm r) as (new & Hnew & HP).
  unfold mbind, M_bind. destruct (m r) as [[a|e] r1]; simpl in *.
  - destruct (Hk a r1) as (new' & Hnew' & HP').
    exists (new ++ new'). rewrite Hnew', Hnew, app_assoc.
    split; [done|]. by apply Forall_app.
  - by exists new.
Qed.

Lemma logs_only_for_each {X} (l : list X) (body : X → M (Run Q) unit) :
  (∀ x, logs_only P (body x)) → logs_only P (for_each l body).
Proof.
  intros Hbody. induction l as [|x l IH]; simpl.
  - apply logs_only_ret.
  - apply logs_only_bind; [apply Hbody|]. by intros _.
Qed.

Lemma logs_only_range start stop step : logs_only P (range start stop step).
Proof.
  unfold range. case_decide; [apply logs_only_raise|apply logs_only_ret].
Qed.
End logs.

(** [get_compiler(using).execute_sql(a)] followed by [k]. *)
Lemma logs_only_execute {Q B} {CL : CompilerLayer Q} cls db a
    (k : value → M (Run Q) B) :
  (∀ v, logs_only (via cls db a) (k v)) →
  logs_only (via cls db a)
    (get_compiler cls db ≫= λ c, execute_sql c a ≫= k).
Proof.
  intros Hk r.
  destruct (Query_get_compiler cls db (self r)) as [err|conn] eqn:Hget.
  - exists []. rewrite app_nil_r.
    by rewrite (bind_raised_at _ _ _ _ _ (get_compiler_fails _ _ _ _ Hget)).
  - set (e := {| compiler := cls; using_ := db; query := self r; arg := a |}).
    set (r1 := {| self := self r; executed := executed r ++ [e] |}).
    assert (get_compiler cls db r
            = (Returned {| compiler_class := cls; compiler_using := db;
                           connection := conn |}, r)) as Hc.
    { unfold get_compiler. rewrite (bind_returned _ _ r r r) by reflexivity.
      by rewrite Hget. }
    rewrite (bind_returned _ _ _ _ _ Hc).
    destruct (Compiler_execute_sql (executed r) e) as [err|v] eqn:Hexec.
    + exists [e]. split; [|by repeat constructor].
      assert (execute_sql {| compiler_class := cls; compiler_using := db;
                             connection := conn |} a r
              = (Raised (Foreign err), r1)) as Hx.
      { unfold execute_sql, mbind, M_bind, get, modify. simpl.
        fold e. by rewrite Hexec. }
      by rewrite (bind_raised_at _ _ _ _ _ Hx).
    + destruct (Hk v r1) as (new & Hnew & HP).
      exists (e :: new). split; [|by apply Forall_cons].
      assert (execute_sql {| compiler_class := cls; compiler_using := db;
                             connection := conn |} a r
              = (Returned v, r1)) as Hx.
      { unfold execute_sql, mbind, M_bind, get, modify. simpl.
        fold e. by rewrite Hexec. }
      rewrite (bind_returned _ _ _ _ _ Hx).
      etrans; [exact Hnew|]. simpl. by rewrite <- app_assoc.
Qed.

Create HintDb logs.
#[export] Hint Resolve logs_only_ret logs_only_raise logs_only_get
  logs_only_on_self logs_only_range : logs.

Ltac logs_step :=
  lazymatch goal with
  | |- logs_only _ (for_each _ _) => apply logs_only_for_each; intros ?
  | |- logs_only _ (if ?b then _ else _) => destruct b
  | |- logs_only _ (get_compiler _ _ ≫= _) =>
      apply logs_only_execute; intros ?
  | |- logs_only _ (_ ≫= _) => apply logs_only_bind; [|intros ?]
  | |- _ => solve [eauto with logs]
  end.

Section delete_logs.
Context {W : WhereClass} {ML : MetaLayer} {K : Constants}
        {CD : CompilerLayer Query}.

Lemma do_query_logs table w db :
  logs_only (via "SQLDeleteCompiler" db VNone)
    (DeleteQuery.do_query table w db).
Proof. unfold DeleteQuery.do_query. repeat logs_step. Qed.
Local Hint Resolve do_query_logs : logs.

Lemma delete_batch_logs pk_list db :
  logs_only (via "SQLDeleteCompiler" db VNone)
    (DeleteQuery.delete_batch pk_list db).
Proof. unfold DeleteQuery.delete_batch. repeat logs_step. Qed.

Lemma delete_batch_related_logs pk_list db :
  logs_only (via "SQLDeleteCompiler" db VNone)
    (DeleteQuery.delete_batch_related pk_list db).
Proof. unfold DeleteQuery.delete_batch_related. repeat logs_step. Qed.
End delete_logs.

Lemma clear_related_logs {W : WhereClass} {ML : MetaLayer} {K : Constants}
    {CU : CompilerLayer UpdateQuery.t} rf pk_list db :
  logs_only (via "SQLUpdateCompiler" db VNone)
    (UpdateQuery.clear_related rf pk_list db).
Proof.
  unfold UpdateQuery.clear_related. repeat logs_step.
Qed.

(** ** UpdateQuery.add_update_values *)

Section add_update_values.
Context {W : WhereClass} {ML : MetaLayer}.
Implicit Types (q : UpdateQuery.t) (items : list (string * value)).

Lemma extends_updates_refl m : extends_updates m m.
Proof. intros k l Hk. exists []. by rewrite app_nil_r. Qed.

Lemma extends_updates_trans m1 m2 m3 :
  extends_updates m1 m2 → extends_updates m2 m3 → extends_updates m1 m3.
Proof.
  intros H12 H23 k l Hk.
  destruct (H12 k l Hk) as (l1 & Hk1).
  destruct (H23 k _ Hk1) as (l2 & Hk2).
  exists (l1 ++ l2). by rewrite app_assoc.
Qed.

(** [add_related_update] touches [related_updates] only, and only by
    appending under the key [model]. *)
Lemma add_related_update_run model field val q :
  ∃ q',
    UpdateQuery.add_related_update model field val q = (Returned tt, q') ∧
    UpdateQuery.base q' = UpdateQuery.base q ∧
    UpdateQuery.values q' = UpdateQuery.values q ∧
    UpdateQuery.related_ids q' = UpdateQuery.related_ids q ∧
    extends_updates (UpdateQuery.related_updates q)
      (UpdateQuery.related_updates q') ∧
    UpdateQuery.related_updates q' !! model
    = Some (default [] (UpdateQuery.related_updates q !! model)
              ++ [(field, None, val)]).
Proof.
  unfold UpdateQuery.add_related_update, modify.
  eexists. split; [reflexivity|].
  destruct (UpdateQuery.related_updates q !! model) as [l|] eqn:E; simpl.
  - repeat split; [|by rewrite lookup_insert_eq].
    intros k l' Hk. destruct (decide (model = k)) as [->|Hne].
    + rewrite lookup_insert_eq. exists [(field, None, val)].
      by pose proof (eq_trans (eq_sym E) Hk) as [= ->].
    + rewrite lookup_insert_ne by done. exists []. by rewrite app_nil_r.
  - repeat split; [|by rewrite lookup_insert_eq].
    intros k l' Hk. destruct (decide (model = k)) as [->|Hne].
    + by pose proof (eq_trans (eq_sym E) Hk).
    + rewrite lookup_insert_ne by done. exists []. by rewrite app_nil_r.
Qed.

(** One iteration of the loop. *)
Lemma add_update_values_loop_cons name val rest values_seq q :
  UpdateQuery.add_update_values_loop ((name, val) :: rest) values_seq q =
  match get_field_by_name (model (UpdateQuery.base q)) name with
  | inl e => (Raised (Foreign e), q)
  | inr (field, m, direct, m2m) =>
      if negb direct || m2m then (Raised (FieldError field), q)
      else
        match m with
        | Some m' =>
            (UpdateQuery.add_related_update m' field val ≫= λ _,
             UpdateQuery.add_update_values_loop rest values_seq) q
        | None =>
            UpdateQuery.add_update_values_loop rest
              (values_seq ++ [(field, None, val)]) q
        end
  end.
Proof.
  simpl. unfold mbind at 1, M_bind at 1, get at 1; simpl.
  unfold mbind at 1, M_bind at 1.
  destruct (get_field_by_name _ name) as [e|[[[field m] direct] m2m]];
    simpl; [done|].
  destruct (negb direct || m2m); [done|]. by destruct m.
Qed.

(** What the loop leaves behind, and why it ended the way it did. *)
Lemma add_update_values_loop_run items values_seq q :
  let res := UpdateQuery.add_update_values_loop items values_seq q in
  let cls := model (UpdateQuery.base q) in
  UpdateQuery.base res.2 = UpdateQuery.base q ∧
  UpdateQuery.values res.2 = UpdateQuery.values q ∧
  UpdateQuery.related_ids res.2 = UpdateQuery.related_ids q ∧
  extends_updates (UpdateQuery.related_updates q)
    (UpdateQuery.related_updates res.2) ∧
  match res.1 with
  | Returned _ =>
      ∀ name val, (name, val) ∈ items →
        resolves cls name ∧ ¬ not_updatable cls name
  | Raised (FieldError _) =>
      ∃ name val, (name, val) ∈ items ∧ not_updatable cls name
  | Raised (Foreign _) =>
      ∃ name val, (name, val) ∈ items ∧ ¬ resolves cls name
  | Raised _ => False
  end.
Proof.
  revert values_seq q.
  induction items as [|[name val] rest IH]; intros values_seq q; cbv zeta.
  - simpl. do 3 (split; [done|]). split; [apply extends_updates_refl|].
    by intros ?? ?%elem_of_nil.
  - rewrite add_update_values_loop_cons.
    destruct (get_field_by_name (model (UpdateQuery.base q)) name)
      as [e|[[[field m] direct] m2m]] eqn:E; simpl.
    { do 3 (split; [done|]). split; [apply extends_updates_refl|].
      exists name, val. split; [apply list_elem_of_here|].
      intros [info ?]. congruence. }
    destruct (negb direct || m2m) eqn:Hbad; simpl.
    { do 3 (split; [done|]). split; [apply extends_updates_refl|].
      exists name, val. split; [apply list_elem_of_here|].
      exists field, m, direct, m2m. split; [done|].
      destruct direct, m2m; auto; discriminate. }
    assert (resolves (model (UpdateQuery.base q)) name ∧
            ¬ not_updatable (model (UpdateQuery.base q)) name) as Hok.
    { split; [by eexists|].
      intros (f' & m' & d' & m2' & E' & Hd).
      rewrite E in E'. simplify_eq.
      destruct Hd; subst; simpl in *;
        [discriminate | by rewrite orb_true_r in Hbad]. }
    destruct m as [m|].
    + destruct (add_related_update_run m field val q)
        as (q1 & Hrun & Hb & Hv & Hi & Hu & _).
      rewrite (bind_returned _ _ q tt q1) by exact Hrun.
      specialize (IH values_seq q1). simpl in IH. rewrite Hb in IH.
      destruct IH as (IHb & IHv & IHi & IHu & IHo).
      split; [congruence|]. split; [congruence|]. split; [congruence|].
      split; [by eapply extends_updates_trans|].
      destruct (UpdateQuery.add_update_values_loop rest values_seq q1)
        as [[vs|[f| | |e]] q2]; simpl in *; try done.
      * intros n v [?|Hin]%elem_of_cons; [by simplify_eq|by apply (IHo n v)].
      * destruct IHo as (n & v & Hin & Hn).
        exists n, v. split; [by apply list_elem_of_further|done].
      * destruct IHo as (n & v & Hin & Hn).
        exists n, v. split; [by apply list_elem_of_further|done].
    + specialize (IH (values_seq ++ [(field, None, val)]) q). simpl in IH.
      destruct IH as (IHb & IHv & IHi & IHu & IHo).
      repeat (split; [done|]).
      destruct (UpdateQuery.add_update_values_loop rest _ q)
        as [[vs|[f| | |e]] q2]; simpl in *; try done.
      * intros n v [?|Hin]%elem_of_cons; [by simplify_eq|by apply (IHo n v)].
      * destruct IHo as (n & v & Hin & Hn).
        exists n, v. split; [by apply list_elem_of_further|done].
      * destruct IHo as (n & v & Hin & Hn).
        exists n, v. split; [by apply list_elem_of_further|done].
Qed.
End add_update_values.

(** ** InsertQuery.insert_values and GeoInsertQuery.insert_values *)

Section insert_values.
Context {W : WhereClass}.
Implicit Types (q : InsertQuery.t) (items : list (Field * value)).

Lemma insert_values_loop_run items conn placeholders vals q :
  InsertQuery.insert_values_loop items conn placeholders vals q =
  (Returned (placeholders ++ placeholders_of conn items,
             vals ++ (snd <$> items)),
   InsertQuery.set_columns (InsertQuery.columns q ++ columns_of items) q).
Proof.
  revert placeholders vals q.
  induction items as [|[field val] rest IH]; intros placeholders vals q.
  - simpl. rewrite !app_nil_r. by destruct q.
  - simpl. unfold mbind, M_bind, modify. rewrite IH. simpl.
    by rewrite <- !app_assoc.
Qed.

Lemma geo_insert_values_loop_run items conn placeholders vals q :
  GeoInsertQuery.insert_values_loop items conn placeholders vals q =
  (Returned (placeholders ++ placeholders_of conn items,
             vals ++ (snd <$> filter (not_null conn) items)),
   InsertQuery.set_columns (InsertQuery.columns q ++ columns_of items) q).
Proof.
  revert placeholders vals q.
  induction items as [|[field val] rest IH]; intros placeholders vals q.
  - simpl. rewrite !app_nil_r. by destruct q.
  - simpl. unfold mbind, M_bind, modify. rewrite last_snoc.
    rewrite filter_cons. unfold not_null at 1. simpl.
    destruct (decide (InsertQuery.placeholder_of field val conn = "NULL"))
      as [Hnull|Hnull].
    + rewrite decide_False by (by intros Hn). rewrite IH. simpl.
      by rewrite <- !app_assoc.
    + rewrite decide_True by done. rewrite IH. simpl.
      by rewrite <- !app_assoc.
Qed.

Lemma insert_values_run items conn q :
  InsertQuery.insert_values items conn false q =
  (Returned tt,
   {| InsertQuery.base := InsertQuery.base q;
      InsertQuery.columns := InsertQuery.columns q ++ columns_of items;
      InsertQuery.values :=
        InsertQuery.values q ++ (VStr <$> placeholders_of conn items);
      InsertQuery.params := InsertQuery.params q ++ (snd <$> items);
      InsertQuery.return_id := InsertQuery.return_id q |}).
Proof.
  unfold InsertQuery.insert_values.
  erewrite bind_returned by apply insert_values_loop_run.
  reflexivity.
Qed.

Lemma geo_insert_values_run items conn q :
  GeoInsertQuery.insert_values items conn false q =
  (Returned tt,
   {| InsertQuery.base := InsertQuery.base q;
      InsertQuery.columns := InsertQuery.columns q ++ columns_of items;
      InsertQuery.values :=
        InsertQuery.values q ++ (VStr <$> placeholders_of conn items);
      InsertQuery.params :=
        InsertQuery.params q ++ (snd <$> filter (not_null conn) items);
      InsertQuery.return_id := InsertQuery.return_id q |}).
Proof.
  unfold GeoInsertQuery.insert_values.
  erewrite bind_returned by apply geo_insert_values_loop_run.
  reflexivity.
Qed.

(** With [raw_values] the surviving values go to [values] instead. *)
Lemma geo_insert_values_raw_run items conn q :
  GeoInsertQuery.insert_values items conn true q =
  (Returned tt,
   {| InsertQuery.base := InsertQuery.base q;
      InsertQuery.columns := InsertQuery.columns q ++ columns_of items;
      InsertQuery.values :=
        InsertQuery.values q ++ (snd <$> filter (not_null conn) items);
      InsertQuery.params := InsertQuery.params q;
      InsertQuery.return_id := InsertQuery.return_id q |}).
Proof.
  unfold GeoInsertQuery.insert_values.
  erewrite bind_returned by apply geo_insert_values_loop_run.
  reflexivity.
Qed.
End insert_values.

(** ** What each operation can raise *)

Section raises_only.
Context {S : Type} (P : exn → Prop).

Lemma raises_only_ret {A} (a : A) : raises_only P (mret a : M S A).
Proof. by intros s e. Qed.

Lemma raises_only_get : raises_only P (get : M S S).
Proof. by intros s e. Qed.

Lemma raises_only_modify f : raises_only P (modify f : M S unit).
Proof. by intros s e. Qed.

Lemma raises_only_raise {A} e : P e → raises_only P (raise e : M S A).
Proof. intros He s e' [= <-]. exact He. Qed.

Lemma raises_only_lift {A} (r : string + A) :
  (∀ e, r = inl e → P (Foreign e)) → raises_only P (lift r : M S A).
Proof.
  intros Hr s e. destruct r as [e'|a]; simpl; [|done].
  intros [= <-]. by apply Hr.
Qed.

Lemma raises_only_bind {A B} (m : M S A) (k : A → M S B) :
  raises_only P m → (∀ a, raises_only P (k a)) → raises_only P (m ≫= k).
Proof.
  intros Hm Hk s e. specialize (Hm s). unfold mbind, M_bind.
  destruct (m s) as [[a|e'] s1]; simpl in *; [apply Hk|].
  intros [= <-]. by apply Hm.
Qed.

Lemma raises_only_for_each {X} (l : list X) (body : X → M S unit) :
  (∀ x, raises_only P (body x)) → raises_only P (for_each l body).
Proof.
  intros Hbody. induction l as [|x l IH]; simpl.
  - apply raises_only_ret.
  - apply raises_only_bind; [apply Hbody|]. by intros _.
Qed.

Lemma raises_only_range start stop step :
  (step = 0 → P ValueError) →
  raises_only P (range start stop step : M S (list nat)).
Proof.
  intros Hstep. unfold range. case_decide.
  - by apply raises_only_raise, Hstep.
  - apply raises_only_ret.
Qed.
End raises_only.

Lemma raises_only_on_self {Q A} (P : exn → Prop) (m : M Q A) :
  raises_only P m → raises_only P (on_self m).
Proof.
  intros Hm r e. specialize (Hm (self r) e). unfold on_self.
  by destruct (m (self r)).
Qed.

Lemma raises_only_mono {S A} (P P' : exn → Prop) (m : M S A) :
  (∀ e, P e → P' e) → raises_only P m → raises_only P' m.
Proof. intros HP Hm s e He. by apply HP, (Hm s). Qed.

(** [get_compiler(using)] followed by [k] on the compiler it returns. *)
Lemma raises_only_get_compiler {Q B} {CL : CompilerLayer Q} (P : exn → Prop)
    cls db (k : Compiler → M (Run Q) B) :
  (∀ e, compiler_raised cls db e → P e) →
  (∀ conn,
     raises_only P
       (k {| compiler_class := cls; compiler_using := db;
             connection := conn |})) →
  raises_only P (get_compiler cls db ≫= k).
Proof.
  intros HP Hk r e.
  destruct (Query_get_compiler cls db (self r)) as [e'|conn] eqn:Hget.
  - rewrite (bind_raised_at _ _ _ _ _ (get_compiler_fails _ _ _ _ Hget)).
    intros [= <-]. apply HP. left. by exists (self r), e'.
  - assert (get_compiler cls db r
            = (Returned {| compiler_class := cls; compiler_using := db;
                           connection := conn |}, r)) as Hc.
    { unfold get_compiler. rewrite (bind_returned _ _ r r r) by reflexivity.
      by rewrite Hget. }
    rewrite (bind_returned _ _ _ _ _ Hc). apply Hk.
Qed.

Lemma raises_only_execute_sql {Q} {CL : CompilerLayer Q} (P : exn → Prop)
    cls db conn a :
  (∀ e, compiler_raised cls db e → P e) →
  raises_only P
    (execute_sql {| compiler_class := cls; compiler_using := db;
                    connection := conn |} a : M (Run Q) value).
Proof.
  intros HP r e. unfold execute_sql, mbind, M_bind, get, modify. simpl.
  destruct (Compiler_execute_sql (executed r) _) as [e'|v] eqn:Hexec;
    simpl; [|done].
  intros [= <-]. apply HP. right.
  by exists (executed r),
    {| compiler := cls; using_ := db; query := self r; arg := a |}, e'.
Qed.

Ltac raises_only_step :=
  lazymatch goal with
  | |- raises_only _ (for_each _ _) => apply raises_only_for_each; intros ?
  | |- raises_only _ (on_self _) => apply raises_only_on_self
  | |- raises_only _ (if ?b then _ else _) => destruct b
  | |- raises_only _ (_ ≫= _) => apply raises_only_bind; [|intros ?]
  | |- raises_only _ (mret _) => apply raises_only_ret
  | |- raises_only _ get => apply raises_only_get
  | |- raises_only _ (modify _) => apply raises_only_modify
  end.

Section raises_only_ops.
Context {W : WhereClass} {ML : MetaLayer} {K : Constants} {QB : QueryBase}.
Context {CD : CompilerLayer Query} {CU : CompilerLayer UpdateQuery.t}
        {CI : CompilerLayer InsertQuery.t}.

Lemma raises_only_do_query table w db :
  raises_only (compiler_raised (CL := CD) "SQLDeleteCompiler" db)
    (DeleteQuery.do_query table w db).
Proof.
  unfold DeleteQuery.do_query.
  do 2 (apply raises_only_bind; [repeat raises_only_step|intros ?]).
  apply (raises_only_get_compiler (CL := CD)); [done|intros conn].
  apply raises_only_bind; [by apply raises_only_execute_sql|intros ?].
  apply raises_only_ret.
Qed.

Lemma raises_only_batch_range {Q} {CL : CompilerLayer Q} cls db stop :
  raises_only (batch_error cls db)
    (range 0 stop GET_ITERATOR_CHUNK_SIZE : M (Run Q) (list nat)).
Proof. apply raises_only_range. intros Hzero. by left. Qed.

Lemma raises_only_batch_do_query table w db :
  raises_only (batch_error (CL := CD) "SQLDeleteCompiler" db)
    (DeleteQuery.do_query table w db).
Proof.
  eapply raises_only_mono; [|apply raises_only_do_query].
  intros e He. by right.
Qed.

Lemma raises_only_delete_batch pk_list db :
  raises_only (batch_error (CL := CD) "SQLDeleteCompiler" db)
    (DeleteQuery.delete_batch pk_list db).
Proof.
  unfold DeleteQuery.delete_batch.
  apply raises_only_bind;
    [apply (raises_only_batch_range (CL := CD))|intros offsets].
  apply raises_only_for_each. intros offset.
  do 2 (apply raises_only_bind; [apply raises_only_get|intros ?]).
  apply raises_only_batch_do_query.
Qed.

Lemma raises_only_delete_batch_related pk_list db :
  raises_only (batch_error (CL := CD) "SQLDeleteCompiler" db)
    (DeleteQuery.delete_batch_related pk_list db).
Proof.
  unfold DeleteQuery.delete_batch_related.
  apply raises_only_bind; [apply raises_only_get|intros r].
  apply raises_only_bind.
  - apply raises_only_for_each. intros field.
    destruct (negb (generic field)); [|apply raises_only_ret].
    apply raises_only_bind;
      [apply (raises_only_batch_range (CL := CD))|intros offsets].
    apply raises_only_for_each. intros offset.
    apply raises_only_batch_do_query.
  - intros _. apply raises_only_for_each. intros f.
    apply raises_only_bind;
      [apply (raises_only_batch_range (CL := CD))|intros offsets].
    apply raises_only_for_each. intros offset.
    apply raises_only_batch_do_query.
Qed.

Lemma raises_only_clear_related rf pk_list db :
  raises_only (batch_error (CL := CU) "SQLUpdateCompiler" db)
    (UpdateQuery.clear_related rf pk_list db).
Proof.
  unfold UpdateQuery.clear_related.
  apply raises_only_bind;
    [apply (raises_only_batch_range (CL := CU))|intros offsets].
  apply raises_only_for_each. intros offset.
  apply raises_only_bind; [repeat raises_only_step|intros ?].
  apply raises_only_bind; [apply raises_only_get|intros ?].
  do 2 (apply raises_only_bind; [repeat raises_only_step|intros ?]).
  apply (raises_only_get_compiler (CL := CU)); [by right|intros conn].
  apply raises_only_bind; [|intros ?; apply raises_only_ret].
  apply raises_only_execute_sql. by right.
Qed.

Lemma insert_values_returns items conn raw_values q :
  (InsertQuery.insert_values items conn raw_values q).1 = Returned tt.
Proof.
  unfold InsertQuery.insert_values.
  erewrite bind_returned by apply insert_values_loop_run.
  by destruct raw_values.
Qed.

Lemma geo_insert_values_returns items conn raw_values q :
  (GeoInsertQuery.insert_values items conn raw_values q).1 = Returned tt.
Proof.
  unfold GeoInsertQuery.insert_values.
  erewrite bind_returned by apply geo_insert_values_loop_run.
  by destruct raw_values.
Qed.

Lemma insert_query_raised model values return_id raw_values db e :
  (insert_query model values return_id raw_values db).1 = Raised e →
  compiler_raised (CL := CI) "SQLInsertCompiler" db e.
Proof.
  unfold insert_query.
  generalize ({| self := InsertQuery.init (Query_init model);
                 executed := [] |}).
  intros r. revert e. revert r.
  change (raises_only (compiler_raised (CL := CI) "SQLInsertCompiler" db)
    (get_compiler (compiler_of InsertQuery_cls) db ≫= λ compiler,
     on_self (GeoInsertQuery.insert_values values (connection compiler)
                raw_values) ≫= λ _,
     execute_sql compiler (VBool return_id))).
  apply (raises_only_get_compiler (CL := CI)); [done|intros conn].
  apply raises_only_bind; [|intros; by apply raises_only_execute_sql].
  apply raises_only_on_self. intros q e.
  by rewrite geo_insert_values_returns.
Qed.
End raises_only_ops.

(** ** add_update_values as a whole *)

Section add_update_values_whole.
Context {W : WhereClass} {ML : MetaLayer}.

(** [add_update_fields] runs only when the loop has returned. *)
Lemma add_update_values_run values q :
  UpdateQuery.add_update_values values q =
  match UpdateQuery.add_update_values_loop values [] q with
  | (Returned values_seq, q') =>
      (Returned tt,
       UpdateQuery.set_values (UpdateQuery.values q' ++ values_seq) q')
  | (Raised e, q') => (Raised e, q')
  end.
Proof.
  unfold UpdateQuery.add_update_values, mbind, M_bind.
  by destruct (UpdateQuery.add_update_values_loop values [] q) as [[vs|e] q'].
Qed.

(** The state a raising call leaves behind. *)
Lemma add_update_values_raised values q :
  raises (UpdateQuery.add_update_values values q) →
  let q' := (UpdateQuery.add_update_values values q).2 in
  UpdateQuery.base q' = UpdateQuery.base q ∧
  UpdateQuery.values q' = UpdateQuery.values q ∧
  UpdateQuery.related_ids q' = UpdateQuery.related_ids q ∧
  extends_updates (UpdateQuery.related_updates q)
    (UpdateQuery.related_updates q').
Proof.
  rewrite add_update_values_run.
  pose proof (add_update_values_loop_run values [] q) as Hloop.
  simpl in Hloop.
  destruct (UpdateQuery.add_update_values_loop values [] q) as [[vs|e] q'];
    simpl in *; [by intros []|].
  intros _. by destruct Hloop as (?&?&?&?&_).
Qed.

(** How the call ends, from how the loop ends. *)
Lemma add_update_values_outcome values q :
  let cls := model (UpdateQuery.base q) in
  match (UpdateQuery.add_update_values values q).1 with
  | Returned _ =>
      ∀ name val, (name, val) ∈ values →
        resolves cls name ∧ ¬ not_updatable cls name
  | Raised (FieldError _) =>
      ∃ name val, (name, val) ∈ values ∧ not_updatable cls name
  | Raised (Foreign _) =>
      ∃ name val, (name, val) ∈ values ∧ ¬ resolves cls name
  | Raised _ => False
  end.
Proof.
  rewrite add_update_values_run.
  pose proof (add_update_values_loop_run values [] q) as Hloop.
  simpl in Hloop.
  destruct (UpdateQuery.add_update_values_loop values [] q) as [[vs|e] q'];
    simpl in *; by destruct Hloop as (_&_&_&_&?).
Qed.
End add_update_values_whole.

(** ** DateQuery.add_date_select *)

Lemma add_date_select_run {W : WhereClass} {QB : QueryBase}
    field lookup_type order q initial q1 result q2 alias :
  get_initial_alias q = (initial, q1) →
  setup_joins [name field] (get_meta q) initial false q1 = (inr result, q2) →
  last (joins result) = Some alias →
  DateQuery.add_date_select field lookup_type order q =
  (Returned tt,
   set_order_by
     (if decide (order = VStr "ASC") then [ByPos 1] else [ByPos (-1)])
     (set_distinct true
        (set_extra_mask []
           (set_select_related (SR false)
              (set_select_fields [None]
                 (set_select
                    [SelDate {| col := (alias, column field);
                                lookup_type := lookup_type |}]
                    q2)))))).
Proof.
  intros Hinit Hjoins Hlast. unfold DateQuery.add_date_select.
  rewrite (bind_returned _ _ q q q) by reflexivity.
  rewrite (bind_returned _ _ q initial q1)
    by (unfold DateQuery.call; by rewrite Hinit).
  rewrite (bind_returned _ _ q1 result q2)
    by (unfold DateQuery.call_setup_joins; by rewrite Hjoins).
  rewrite (bind_returned _ _ q2 alias q2)
    by (unfold DateQuery.last_item; by rewrite Hlast).
  reflexivity.
Qed.

(** ** AggregateQuery.add_subquery *)

Lemma add_subquery_run {W : WhereClass} {I} {IC : InnerCompiler I}
    (inner : I) db q :
  AggregateQuery.add_subquery inner db q =
  (Returned tt,
   {| AggregateQuery.base := AggregateQuery.base q;
      AggregateQuery.subquery := Some (as_sql inner db true).1;
      AggregateQuery.sub_params := Some (as_sql inner db true).2 |}).
Proof.
  unfold AggregateQuery.add_subquery.
  by destruct (as_sql inner db true) as [sql params].
Qed.

(** [add_date_select] when [setup_joins] raises, and when it returns no
    join. *)
Lemma add_date_select_setup_raises {W : WhereClass} {QB : QueryBase}
    field lookup_type order q initial q1 e q2 :
  get_initial_alias q = (initial, q1) →
  setup_joins [name field] (get_meta q) initial false q1 = (inl e, q2) →
  DateQuery.add_date_select field lookup_type order q
  = (Raised (Foreign e), q2).
Proof.
  intros Hinit Hjoins. unfold DateQuery.add_date_select.
  rewrite (bind_returned _ _ q q q) by reflexivity.
  rewrite (bind_returned _ _ q initial q1)
    by (unfold DateQuery.call; by rewrite Hinit).
  apply bind_raised_at. unfold DateQuery.call_setup_joins. by rewrite Hjoins.
Qed.

Lemma add_date_select_no_join {W : WhereClass} {QB : QueryBase}
    field lookup_type order q initial q1 result q2 :
  get_initial_alias q = (initial, q1) →
  setup_joins [name field] (get_meta q) initial false q1 = (inr result, q2) →
  joins result = [] →
  DateQuery.add_date_select field lookup_type order q
  = (Raised IndexError, q2).
Proof.
  intros Hinit Hjoins Hnil. unfold DateQuery.add_date_select.
  rewrite (bind_returned _ _ q q q) by reflexivity.
  rewrite (bind_returned _ _ q initial q1)
    by (unfold DateQuery.call; by rewrite Hinit).
  rewrite (bind_returned _ _ q1 result q2)
    by (unfold DateQuery.call_setup_joins; by rewrite Hjoins).
  apply bind_raised_at. unfold DateQuery.last_item. by rewrite Hnil.
Qed.

(** Why [add_date_select] raised. *)
Lemma add_date_select_raised {W : WhereClass} {QB : QueryBase}
    field lookup_type order q e :
  (DateQuery.add_date_select field lookup_type order q).1 = Raised e →
  (∃ e',
     (setup_joins [name field] (get_meta q) (get_initial_alias q).1 false
        (get_initial_alias q).2).1 = inl e' ∧
     e = Foreign e') ∨
  (e = IndexError ∧
   ∃ result,
     (setup_joins [name field] (get_meta q) (get_initial_alias q).1 false
        (get_initial_alias q).2).1 = inr result ∧
     joins result = []).
Proof.
  destruct (get_initial_alias q) as [initial q1] eqn:Hinit. simpl.
  destruct (setup_joins [name field] (get_meta q) initial false q1)
    as [[e'|result] q2] eqn:Hjoins; simpl.
  - rewrite (add_date_select_setup_raises _ _ _ _ _ _ _ _ Hinit Hjoins).
    intros [= <-]. left. by exists e'.
  - destruct (last (joins result)) as [alias|] eqn:Hlast.
    + by rewrite (add_date_select_run _ _ _ _ _ _ _ _ _ Hinit Hjoins Hlast).
    + apply last_None in Hlast.
      rewrite (add_date_select_no_join _ _ _ _ _ _ _ _ Hinit Hjoins Hlast).
      intros [= <-]. right. split; [done|]. by exists result.
Qed.

(** ** insert_query *)

Section insert_query.
Context {W : WhereClass} {QB : QueryBase} {CI : CompilerLayer InsertQuery.t}.

(** When [get_compiler] returns a compiler bound to [conn]: the query is
    built with [conn] and executed once; the call ends as that execution
    does. *)
Lemma insert_query_run conn model values return_id raw_values db :
  Query_get_compiler "SQLInsertCompiler" db
    (InsertQuery.init (Query_init model)) = inr conn →
  let q' :=
    (GeoInsertQuery.insert_values values conn raw_values
       (InsertQuery.init (Query_init model))).2 in
  let e := {| compiler := "SQLInsertCompiler"; using_ := db; query := q';
              arg := VBool return_id |} in
  insert_query model values return_id raw_values db =
  (outcome_of (Compiler_execute_sql [] e), {| self := q'; executed := [e] |}).
Proof.
  intros Hget. unfold insert_query.
  erewrite bind_returned by (by apply get_compiler_returns).
  assert (∀ q1,
    (GeoInsertQuery.insert_values values conn raw_values
       (InsertQuery.init (Query_init model))) = (Returned tt, q1) →
    (on_self
       (GeoInsertQuery.insert_values values conn raw_values) ≫= λ _,
     execute_sql
       {| compiler_class := "SQLInsertCompiler"; compiler_using := db;
          connection := conn |} (VBool return_id))
      {| self := InsertQuery.init (Query_init model); executed := [] |}
    = (outcome_of
         (Compiler_execute_sql []
            {| compiler := "SQLInsertCompiler"; using_ := db; query := q1;
               arg := VBool return_id |}),
       {| self := q1;
          executed :=
            [{| compiler := "SQLInsertCompiler"; using_ := db; query := q1;
                arg := VBool return_id |}] |})) as Hrest.
  { intros q1 Hq1.
    erewrite bind_returned by (unfold on_self; simpl; by rewrite Hq1).
    unfold execute_sql, mbind, M_bind, get, modify. simpl.
    by destruct (Compiler_execute_sql [] _). }
  destruct raw_values.
  - rewrite geo_insert_values_raw_run. simpl.
    apply Hrest. by rewrite geo_insert_values_raw_run.
  - rewrite geo_insert_values_run. simpl.
    apply Hrest. by rewrite geo_insert_values_run.
Qed.

(** When [get_compiler] raises: nothing has been inserted into the query
    and nothing is executed. *)
Lemma insert_query_fails e model values return_id raw_values db :
  Query_get_compiler "SQLInsertCompiler" db
    (InsertQuery.init (Query_init model)) = inl e →
  insert_query model values return_id raw_values db =
  (Raised (Foreign e),
   {| self := InsertQuery.init (Query_init model); executed := [] |}).
Proof.
  intros Hfail. unfold insert_query.
  by erewrite bind_raised_at by (by apply get_compiler_fails).
Qed.
End insert_query.

Lemma ceil_div_bounds a b : 0 < b → a ≤ ceil_div a b * b < a + b.
Proof.
  intros Hb. unfold ceil_div.
  pose proof (Nat.div_mod (a + b - 1) b ltac:(lia)) as Hdiv.
  pose proof (Nat.mod_upper_bound (a + b - 1) b ltac:(lia)) as Hmod.
  nia.
Qed.

(** ** Loops of executions *)

(** A loop whose every iteration returns, adds the executions [E x] and
    keeps [Inv] of the query, adds the executions of all its iterations. *)
Lemma for_each_executions {Q X} (body : X → M (Run Q) unit)
    (E : X → list (Execution Q)) (Inv : Q → Prop) (l : list X) (r : Run Q) :
  (∀ x r, Inv (self r) →
     ∃ q', body x r
           = (Returned tt, {| self := q'; executed := executed r ++ E x |}) ∧
           Inv q') →
  Inv (self r) →
  ∃ q', for_each l body r
        = (Returned tt,
           {| self := q'; executed := executed r ++ concat (E <$> l) |}) ∧
        Inv q' ∧ (l = [] → q' = self r).
Proof.
  intros Hbody. revert r. induction l as [|x l IH]; intros r Hinv.
  - exists (self r). simpl. rewrite app_nil_r. by destruct r.
  - destruct (Hbody x r Hinv) as (q1 & Hrun & Hinv1).
    destruct (IH {| self := q1; executed := executed r ++ E x |} Hinv1)
      as (q' & Hrest & Hinv' & _).
    exists q'. split; [|done]. simpl for_each.
    rewrite (bind_returned _ _ _ _ _ Hrun), Hrest. simpl.
    by rewrite <- app_assoc.
Qed.

Lemma concat_fmap_singleton {X Y} (f : X → Y) (l : list X) :
  concat ((λ x, [f x]) <$> l) = f <$> l.
Proof. induction l as [|x l IH]; simpl; by f_equal. Qed.

Lemma concat_fmap_filter {X Y} (P : X → Prop) `{!∀ x, Decision (P x)}
    (f : X → list Y) (l : list X) :
  concat ((λ x, if decide (P x) then f x else []) <$> l)
  = concat (f <$> filter P l).
Proof.
  induction l as [|x l IH]; [done|].
  rewrite filter_cons, fmap_cons. cbn [concat]. rewrite IH.
  destruct (decide (P x)); [by rewrite fmap_cons|done].
Qed.

Section delete_batch_related.
Context {W : WhereClass} {ML : MetaLayer} {K : Constants}
        {CD : CompilerLayer Query}.

(** One [do_query] on a query that differs from [q0] at most in [tables]
    and [where]. *)
Lemma do_query_exec conn q0 table w db r :
  compiler_ready "SQLDeleteCompiler" db conn →
  same_but_tables_where q0 (self r) →
  ∃ q', DeleteQuery.do_query table w db r
        = (Returned tt,
           {| self := q';
              executed := executed r ++ [delete_exec q0 db table w] |}) ∧
        same_but_tables_where q0 q'.
Proof.
  intros Hready Hs. exists (set_where w (set_tables [table] q0)).
  rewrite (do_query_run conn) by done. simpl. unfold delete_exec.
  rewrite (set_tables_where_same q0 (self r)) by done.
  split; [done|].
  apply same_but_tables_where_set, same_but_tables_where_refl.
Qed.

(** The chunked loop around [do_query], for any table and where clause. *)
Lemma do_query_chunks conn q0 table (clause : list value → WhereNode)
    pk_list db r :
  compiler_ready "SQLDeleteCompiler" db conn →
  0 < GET_ITERATOR_CHUNK_SIZE →
  same_but_tables_where q0 (self r) →
  ∃ q',
    (range 0 (length pk_list) GET_ITERATOR_CHUNK_SIZE ≫= λ offsets,
     for_each offsets (λ offset,
       DeleteQuery.do_query table
         (clause (slice pk_list offset (offset + GET_ITERATOR_CHUNK_SIZE)))
         db)) r
    = (Returned tt,
       {| self := q';
          executed := executed r ++
            ((λ chunk, delete_exec q0 db table (clause chunk))
               <$> chunks GET_ITERATOR_CHUNK_SIZE pk_list) |}) ∧
    same_but_tables_where q0 q'.
Proof.
  intros Hready Hn Hs. unfold range. case_decide; [lia|].
  destruct (for_each_executions
              (λ offset,
                 DeleteQuery.do_query table
                   (clause (slice pk_list offset
                              (offset + GET_ITERATOR_CHUNK_SIZE))) db)
              (λ offset,
                 [delete_exec q0 db table
                    (clause (slice pk_list offset
                               (offset + GET_ITERATOR_CHUNK_SIZE)))])
              (same_but_tables_where q0)
              (range_from (length pk_list - 0) 0 (length pk_list)
                 GET_ITERATOR_CHUNK_SIZE) r)
    as (q' & Hrun & Hq' & _); [|done|].
  { intros o r' Hr'. by apply (do_query_exec conn). }
  exists q'. split; [|done].
  erewrite bind_returned by reflexivity.
  etrans; [exact Hrun|].
  rewrite (concat_fmap_singleton
             (λ o, delete_exec q0 db table
                     (clause (slice pk_list o (o + GET_ITERATOR_CHUNK_SIZE))))).
  unfold chunks. by rewrite <- list_fmap_compose.
Qed.

Lemma delete_batch_related_run conn pk_list db r :
  compiler_ready "SQLDeleteCompiler" db conn →
  0 < GET_ITERATOR_CHUNK_SIZE →
  ∃ q',
    DeleteQuery.delete_batch_related pk_list db r
    = (Returned tt,
       {| self := q';
          executed := executed r ++ related_deletes (self r) db pk_list
                        ++ m2m_deletes (self r) db pk_list |}) ∧
    same_but_tables_where (self r) q'.
Proof.
  intros Hready Hn. unfold DeleteQuery.delete_batch_related.
  rewrite (bind_returned _ _ r r r) by reflexivity.
  set (q0 := self r).
  destruct (for_each_executions
              (λ field,
                 if negb (generic field) then
                   range 0 (length pk_list) GET_ITERATOR_CHUNK_SIZE
                   ≫= λ offsets,
                     for_each offsets (λ offset,
                       DeleteQuery.do_query (m2m_db_table field)
                         (in_clause (m2m_reverse_name field) field
                            (slice pk_list offset
                               (offset + GET_ITERATOR_CHUNK_SIZE)))
                         db)
                 else mret tt)
              (λ field,
                 if decide (generic field = false) then
                   (λ chunk,
                      delete_exec q0 db (m2m_db_table field)
                        (in_clause (m2m_reverse_name field) field chunk))
                     <$> chunks GET_ITERATOR_CHUNK_SIZE pk_list
                 else [])
              (same_but_tables_where q0)
              (get_all_related_many_to_many_objects (model q0)) r)
    as (q1 & Hrun1 & Hq1 & _).
  { intros field r' Hr'. destruct (generic field); simpl.
    - exists (self r'). rewrite app_nil_r. by destruct r'.
    - by apply (do_query_chunks conn q0 (m2m_db_table field)
                  (in_clause (m2m_reverse_name field) field)). }
  { apply same_but_tables_where_refl. }
  rewrite (bind_returned _ _ _ _ _ Hrun1).
  set (r1 := {| self := q1; executed := _ |}).
  destruct (for_each_executions
              (λ f,
                 range 0 (length pk_list) GET_ITERATOR_CHUNK_SIZE
                 ≫= λ offsets,
                   for_each offsets (λ offset,
                     DeleteQuery.do_query (m2m_db_table f)
                       (m2m_where (model q0) f
                          (slice pk_list offset
                             (offset + GET_ITERATOR_CHUNK_SIZE)))
                       db))
              (λ f,
                 (λ chunk,
                    delete_exec q0 db (m2m_db_table f)
                      (m2m_where (model q0) f chunk))
                   <$> chunks GET_ITERATOR_CHUNK_SIZE pk_list)
              (same_but_tables_where q0)
              (many_to_many (model q0)) r1)
    as (q2 & Hrun2 & Hq2 & _).
  { intros f r' Hr'.
    by apply (do_query_chunks conn q0 (m2m_db_table f)
                (m2m_where (model q0) f)). }
  { exact Hq1. }
  exists q2. split; [|done].
  etrans; [exact Hrun2|]. subst r1. simpl.
  unfold related_deletes, m2m_deletes.
  rewrite <- (concat_fmap_filter (λ field, generic field = false)).
  by rewrite <- app_assoc.
Qed.
End delete_batch_related.

(** ** When get_compiler raises in a batch loop *)

Section unavailable.
Context {W : WhereClass} {ML : MetaLayer} {K : Constants}.

Lemma delete_batch_unavailable {CD : CompilerLayer Query} e pk_list db r :
  compiler_unavailable "SQLDeleteCompiler" db e →
  0 < GET_ITERATOR_CHUNK_SIZE → pk_list ≠ [] →
  ∃ q',
    DeleteQuery.delete_batch pk_list db r
    = (Raised (Foreign e), {| self := q'; executed := executed r |}).
Proof.
  intros Hun Hn Hne. unfold DeleteQuery.delete_batch, range.
  case_decide; [lia|]. erewrite bind_returned by reflexivity.
  destruct pk_list as [|pk pk_list]; [done|].
  assert (∃ rest,
    range_from (length (pk :: pk_list) - 0) 0 (length (pk :: pk_list))
      GET_ITERATOR_CHUNK_SIZE = 0 :: rest) as [rest ->].
  { cbn [length Nat.sub range_from]. rewrite decide_True by lia. eauto. }
  cbn [for_each].
  eexists. apply bind_raised_at.
  exact (do_query_fails e _ _ db r (Hun _)).
Qed.

Lemma clear_related_unavailable {CU : CompilerLayer UpdateQuery.t}
    e rf pk_list db r :
  compiler_unavailable "SQLUpdateCompiler" db e →
  0 < GET_ITERATOR_CHUNK_SIZE → pk_list ≠ [] →
  ∃ q',
    UpdateQuery.clear_related rf pk_list db r
    = (Raised (Foreign e), {| self := q'; executed := executed r |}).
Proof.
  intros Hun Hn Hne. unfold UpdateQuery.clear_related, range.
  case_decide; [lia|]. erewrite bind_returned by reflexivity.
  destruct pk_list as [|pk pk_list]; [done|].
  assert (∃ rest,
    range_from (length (pk :: pk_list) - 0) 0 (length (pk :: pk_list))
      GET_ITERATOR_CHUNK_SIZE = 0 :: rest) as [rest ->].
  { cbn [length Nat.sub range_from]. rewrite decide_True by lia. eauto. }
  cbn [for_each].
  eexists. apply bind_raised_at.
  repeat (erewrite bind_returned by reflexivity).
  apply bind_raised_at. apply get_compiler_fails. apply Hun.
Qed.
End unavailable.

(** ** The delete and update operations do not look at the connection *)

Lemma bind_ext {S A B} (m1 m2 : M S A) (k1 k2 : A → M S B) s :
  m1 s = m2 s → (∀ a s', k1 a s' = k2 a s') →
  (m1 ≫= k1) s = (m2 ≫= k2) s.
Proof.
  intros Hm Hk. unfold mbind, M_bind. rewrite Hm.
  by destruct (m2 s) as [[a|e] s'].
Qed.

Lemma for_each_ext {S X} (l : list X) (body1 body2 : X → M S unit) s :
  (∀ x s', body1 x s' = body2 x s') →
  for_each l body1 s = for_each l body2 s.
Proof.
  intros Hbody. revert s. induction l as [|x l IH]; intros s; [done|].
  cbn [for_each]. apply bind_ext; [apply Hbody|]. intros _ s'. apply IH.
Qed.

Section connection_free.
Context {W : WhereClass} {ML : MetaLayer} {K : Constants}.

Lemma execute_connection_free {Q} (CL1 CL2 : CompilerLayer Q) cls db a
    (r : Run Q) :
  same_but_connection CL1 CL2 →
  (c ← get_compiler (CL := CL1) cls db;
   execute_sql (CL := CL1) c a;; mret tt) r
  = (c ← get_compiler (CL := CL2) cls db;
     execute_sql (CL := CL2) c a;; mret tt) r.
Proof.
  intros [Hres Hget]. specialize (Hget cls db (self r)).
  unfold get_compiler, execute_sql, mbind, M_bind, get, modify. simpl.
  destruct (Query_get_compiler (CompilerLayer := CL1) cls db (self r))
    as [e1|c1],
    (Query_get_compiler (CompilerLayer := CL2) cls db (self r))
    as [e2|c2]; try done; simpl.
  - by subst.
  - rewrite Hres. by destruct (Compiler_execute_sql _ _).
Qed.

Lemma do_query_connection_free (CL1 CL2 : CompilerLayer Query)
    table w db r :
  same_but_connection CL1 CL2 →
  DeleteQuery.do_query (CD := CL1) table w db r
  = DeleteQuery.do_query (CD := CL2) table w db r.
Proof.
  intros Hsame. unfold DeleteQuery.do_query.
  apply bind_ext; [done|]. intros _ r1.
  apply bind_ext; [done|]. intros _ r2.
  by apply execute_connection_free.
Qed.

Ltac connection_free :=
  repeat first
    [ by apply do_query_connection_free
    | by apply execute_connection_free
    | apply for_each_ext; intros ? ?
    | apply bind_ext; [reflexivity|]; intros ? ?
    | apply bind_ext; [|intros ? ?]
    | match goal with
      | |- context [if ?b then _ else _] => destruct b
      end
    | reflexivity ].

Lemma delete_batch_connection_free (CL1 CL2 : CompilerLayer Query)
    pk_list db r :
  same_but_connection CL1 CL2 →
  DeleteQuery.delete_batch (CD := CL1) pk_list db r
  = DeleteQuery.delete_batch (CD := CL2) pk_list db r.
Proof.
  intros Hsame. unfold DeleteQuery.delete_batch. connection_free.
Qed.

Lemma delete_batch_related_connection_free (CL1 CL2 : CompilerLayer Query)
    pk_list db r :
  same_but_connection CL1 CL2 →
  DeleteQuery.delete_batch_related (CD := CL1) pk_list db r
  = DeleteQuery.delete_batch_related (CD := CL2) pk_list db r.
Proof.
  intros Hsame. unfold DeleteQuery.delete_batch_related. connection_free.
Qed.

Lemma clear_related_connection_free (CL1 CL2 : CompilerLayer UpdateQuery.t)
    rf pk_list db r :
  same_but_connection CL1 CL2 →
  UpdateQuery.clear_related (CU := CL1) rf pk_list db r
  = UpdateQuery.clear_related (CU := CL2) rf pk_list db r.
Proof.
  intros Hsame. unfold UpdateQuery.clear_related. connection_free.
Qed.
End connection_free.

(** ** The whole effect of add_update_values *)

Section add_update_values_effect.
Context {W : WhereClass} {ML : MetaLayer}.
Implicit Types (q : UpdateQuery.t) (items : list (string * value)).

Lemma grow_nil o : grow o [] = o.
Proof. done. Qed.

Lemma omap_cons_eq {X Y} (f : X → option Y) (x : X) (l : list X) :
  omap f (x :: l)
  = match f x with Some y => y :: omap f l | None => omap f l end.
Proof. done. Qed.

Lemma grow_snoc o t ts :
  grow (Some (default [] o ++ [t])) ts = grow o (t :: ts).
Proof. destruct ts; simpl; [done|]. by rewrite <- app_assoc. Qed.

(** [add_related_update] appends under [model] and touches no other key. *)
Lemma add_related_update_lookup model field val q :
  ∃ q',
    UpdateQuery.add_related_update model field val q = (Returned tt, q') ∧
    UpdateQuery.base q' = UpdateQuery.base q ∧
    UpdateQuery.values q' = UpdateQuery.values q ∧
    UpdateQuery.related_ids q' = UpdateQuery.related_ids q ∧
    UpdateQuery.related_updates q' !! model
    = Some (default [] (UpdateQuery.related_updates q !! model)
              ++ [(field, None, val)]) ∧
    ∀ k, k ≠ model →
      UpdateQuery.related_updates q' !! k
      = UpdateQuery.related_updates q !! k.
Proof.
  unfold UpdateQuery.add_related_update, modify.
  eexists. split; [reflexivity|].
  destruct (UpdateQuery.related_updates q !! model) as [l|] eqn:E; simpl;
    (repeat split; [by rewrite lookup_insert_eq|]);
    intros k Hk; by rewrite lookup_insert_ne.
Qed.

Lemma updatable_intro cls item field m direct m2m :
  get_field_by_name cls item.1 = inr (field, m, direct, m2m) →
  negb direct || m2m = false →
  updatable cls item.
Proof.
  intros E Hok. split; [by eexists|].
  intros (f' & m' & d' & m2' & E' & Hd).
  rewrite E in E'. simplify_eq.
  destruct Hd; subst; simpl in *;
    [discriminate | by rewrite orb_true_r in Hok].
Qed.

(** What the loop has done when it stops, whether it returns or raises:
    the items before the stopping point were all accepted, and their
    triples are in the local list and in [related_updates]. *)
Lemma add_update_values_loop_effect items values_seq q :
  let cls := model (UpdateQuery.base q) in
  match UpdateQuery.add_update_values_loop items values_seq q with
  | (Returned vs, q') =>
      vs = values_seq ++ omap (local_triple cls) items ∧
      Forall (updatable cls) items ∧
      ∀ k, UpdateQuery.related_updates q' !! k
           = grow (UpdateQuery.related_updates q !! k)
               (omap (ancestor_triple cls k) items)
  | (Raised e, q') =>
      ∃ prefix item rest,
        items = prefix ++ item :: rest ∧
        Forall (updatable cls) prefix ∧
        (∀ k, UpdateQuery.related_updates q' !! k
              = grow (UpdateQuery.related_updates q !! k)
                  (omap (ancestor_triple cls k) prefix)) ∧
        match get_field_by_name cls item.1 with
        | inl e' => e = Foreign e'
        | inr (field, _, direct, m2m) =>
            e = FieldError field ∧ (direct = false ∨ m2m = true)
        end
  end.
Proof.
  revert values_seq q.
  induction items as [|[name val] rest IH]; intros values_seq q; cbv zeta.
  - simpl. by rewrite app_nil_r.
  - rewrite add_update_values_loop_cons.
    destruct (get_field_by_name (model (UpdateQuery.base q)) name)
      as [e|[[[field m] direct] m2m]] eqn:E.
    { exists [], (name, val), rest. simpl. by rewrite E. }
    destruct (negb direct || m2m) eqn:Hbad.
    { exists [], (name, val), rest. simpl. rewrite E.
      repeat split; [done..|].
      destruct direct, m2m; auto; discriminate. }
    pose proof (updatable_intro _ (name, val) _ _ _ _ E Hbad) as Hok.
    destruct m as [m|].
    + destruct (add_related_update_lookup m field val q)
        as (q1 & Hrun & Hb & _ & _ & Hm & Hother).
      rewrite (bind_returned _ _ q tt q1) by exact Hrun.
      specialize (IH values_seq q1). cbv zeta in IH. rewrite Hb in IH.
      assert (∀ ts k,
                grow (UpdateQuery.related_updates q1 !! k)
                  (omap (ancestor_triple (model (UpdateQuery.base q)) k) ts)
                = grow (UpdateQuery.related_updates q !! k)
                    (omap (ancestor_triple (model (UpdateQuery.base q)) k)
                       ((name, val) :: ts))) as Hgrow.
      { intros ts k. rewrite omap_cons_eq. unfold ancestor_triple at 2.
        cbn [fst snd]. rewrite E. case_decide as Hk.
        - subst k. rewrite <- grow_snoc. f_equal. exact Hm.
        - f_equal. by apply Hother. }
      destruct (UpdateQuery.add_update_values_loop rest values_seq q1)
        as [[vs|e] q2].
      * destruct IH as (-> & Hall & Hru).
        split; [|split; [by constructor|]].
        { rewrite omap_cons_eq. unfold local_triple at 2.
          cbn [fst snd]. by rewrite E. }
        intros k. by rewrite Hru, Hgrow.
      * destruct IH as (prefix & item & rest' & -> & Hall & Hru & Hitem).
        exists ((name, val) :: prefix), item, rest'.
        split; [done|]. split; [by constructor|]. split; [|done].
        intros k. by rewrite Hru, Hgrow.
    + specialize (IH (values_seq ++ [(field, None, val)]) q). cbv zeta in IH.
      assert (∀ ts k,
                omap (ancestor_triple (model (UpdateQuery.base q)) k)
                  ((name, val) :: ts)
                = omap (ancestor_triple (model (UpdateQuery.base q)) k) ts)
        as Hanc.
      { intros ts k. rewrite omap_cons_eq. unfold ancestor_triple at 1.
        cbn [fst snd]. by rewrite E. }
      destruct (UpdateQuery.add_update_values_loop rest _ q) as [[vs|e] q2].
      * destruct IH as (-> & Hall & Hru).
        split; [|split; [by constructor|]].
        { rewrite omap_cons_eq. unfold local_triple at 2.
          cbn [fst snd]. rewrite E. by rewrite <- app_assoc. }
        intros k. by rewrite Hru, Hanc.
      * destruct IH as (prefix & item & rest' & -> & Hall & Hru & Hitem).
        exists ((name, val) :: prefix), item, rest'.
        split; [done|]. split; [by constructor|]. split; [|done].
        intros k. by rewrite Hru, Hanc.
Qed.
End add_update_values_effect.

Lemma not_updatable_item {ML : MetaLayer} cls (item : string * value) e :
  match get_field_by_name cls item.1 with
  | inl e' => e = Foreign e'
  | inr (field, _, direct, m2m) =>
      e = FieldError field ∧ (direct = false ∨ m2m = true)
  end →
  ¬ updatable cls item.
Proof.
  intros Hitem [[info Hres] Hno].
  destruct (get_field_by_name cls item.1)
    as [e'|[[[field m] direct] m2m]] eqn:E; [done|].
  destruct Hitem as [_ Hbad]. apply Hno. by exists field, m, direct, m2m.
Qed.

(** How [add_update_values] ends, by the first item that is not accepted. *)
Lemma add_update_values_first_offender {W : WhereClass} {ML : MetaLayer}
    values q :
  let cls := model (UpdateQuery.base q) in
  match (UpdateQuery.add_update_values values q).1 with
  | Returned _ => Forall (updatable cls) values
  | Raised e =>
      ∃ prefix item rest,
        values = prefix ++ item :: rest ∧
        Forall (updatable cls) prefix ∧
        match get_field_by_name cls item.1 with
        | inl e' => e = Foreign e'
        | inr (field, _, direct, m2m) =>
            e = FieldError field ∧ (direct = false ∨ m2m = true)
        end
  end.
Proof.
  rewrite add_update_values_run.
  pose proof (add_update_values_loop_effect values [] q) as Heff.
  cbv zeta in Heff.
  destruct (UpdateQuery.add_update_values_loop values [] q) as [[vs|e] q'];
    simpl.
  - by destruct Heff as (_ & ? & _).
  - destruct Heff as (prefix & item & rest & ? & ? & _ & ?). eauto 6.
Qed.

(** The first item that is not accepted is unique. *)
Lemma first_offender_unique {ML : MetaLayer} cls
    (prefix prefix' rest rest' : list (string * value)) item item' :
  prefix ++ item :: rest = prefix' ++ item' :: rest' →
  Forall (updatable cls) prefix → Forall (updatable cls) prefix' →
  ¬ updatable cls item → ¬ updatable cls item' →
  prefix = prefix' ∧ item = item' ∧ rest = rest'.
Proof.
  revert prefix'.
  induction prefix as [|x prefix IH]; intros [|x' prefix'] Heq Hp Hp' Hi Hi';
    simpl in Heq.
  - by simplify_eq.
  - simplify_eq. by apply Forall_cons in Hp' as [? _].
  - simplify_eq. by apply Forall_cons in Hp as [? _].
  - injection Heq as -> Heq.
    apply Forall_cons in Hp as [_ Hp]. apply Forall_cons in Hp' as [_ Hp'].
    destruct (IH _ Heq Hp Hp' Hi Hi') as (-> & -> & ->). done.
Qed.

(** * The claims *)




(** C2. With [raw_values=False], [InsertQuery.insert_values] returns having
    appended one column name, one placeholder and one parameter per pair, so
    [columns], [values] and [params] grow by the number of pairs.
    [GeoInsertQuery.insert_values] appends the same columns and
    placeholders, but a parameter only for the pairs whose placeholder is
    not the literal [NULL]; its [params] can grow by less than its
    placeholder list does. *)
Theorem insert_values_lengths {W : WhereClass}
    (items : list (Field * value)) (conn : Connection) (q : InsertQuery.t) :
  let b := InsertQuery.insert_values items conn false q in
  let g := GeoInsertQuery.insert_values items conn false q in
  (b.1 = Returned tt ∧
   InsertQuery.columns b.2 = InsertQuery.columns q ++ columns_of items ∧
   InsertQuery.values b.2
   = InsertQuery.values q ++ (VStr <$> placeholders_of conn items) ∧
   InsertQuery.params b.2 = InsertQuery.params q ++ (snd <$> items) ∧
   length (InsertQuery.columns b.2)
   = length (InsertQuery.columns q) + length items ∧
   length (InsertQuery.values b.2)
   = length (InsertQuery.values q) + length items ∧
   length (InsertQuery.params b.2)
   = length (InsertQuery.params q) + length items) ∧
  (g.1 = Returned tt ∧
   InsertQuery.columns g.2 = InsertQuery.columns q ++ columns_of items ∧
   InsertQuery.values g.2
   = InsertQuery.values q ++ (VStr <$> placeholders_of conn items) ∧
   InsertQuery.params g.2
   = InsertQuery.params q ++ (snd <$> filter (not_null conn) items) ∧
   length (InsertQuery.columns g.2)
   = length (InsertQuery.columns q) + length items ∧
   length (InsertQuery.values g.2)
   = length (InsertQuery.values q) + length items ∧
   length (InsertQuery.params g.2)
   ≤ length (InsertQuery.params q) + length items) ∧
  (∃ items' conn',
     let g' := GeoInsertQuery.insert_values items' conn' false q in
     length (InsertQuery.params g'.2) - length (InsertQuery.params q)
     < length (InsertQuery.values g'.2) - length (InsertQuery.values q)).
Proof.
  cbv zeta. rewrite insert_values_run, geo_insert_values_run. simpl.
  unfold columns_of, placeholders_of.
  rewrite !length_app, !length_fmap.
  repeat split.
  - pose proof (length_filter (not_null conn) items). lia.
  - exists [(Sample.geo_field "location", VNone)], conn.
    rewrite geo_insert_values_run. simpl.
    rewrite !length_app. simpl. lia.
Qed.

(** C3, as the code has it.  With a positive chunk size, the chunks of
    [pk_list] are consecutive, non-empty, at most [GET_ITERATOR_CHUNK_SIZE]
    long, and concatenate to [pk_list]; their number is the ceiling of
    [len(pk_list) / GET_ITERATOR_CHUNK_SIZE], zero for an empty list.  When
    [get_compiler(using)] returns a compiler and the executions through it
    return, [DeleteQuery.delete_batch] returns having issued one delete
    query per chunk, in order, and
    [UpdateQuery.clear_related] its update queries for exactly the same
    chunks.  When [get_compiler(using)] raises and [pk_list] is not empty,
    either method ends in that exception at the first chunk, no query
    issued.  For an empty [pk_list] either method returns without asking
    for a compiler. *)
Theorem delete_batch_chunks
    {W : WhereClass} {ML : MetaLayer} {K : Constants}
    {CD : CompilerLayer Query} {CU : CompilerLayer UpdateQuery.t}
    (pk_list : list value) (db : DB) (r : Run Query)
    (related_field : Field) (u : Run UpdateQuery.t) :
  0 < GET_ITERATOR_CHUNK_SIZE →
  ∃ batches : list (list value),
    concat batches = pk_list ∧
    Forall (λ c, 0 < length c ≤ GET_ITERATOR_CHUNK_SIZE) batches ∧
    length batches = ceil_div (length pk_list) GET_ITERATOR_CHUNK_SIZE ∧
    length pk_list ≤ length batches * GET_ITERATOR_CHUNK_SIZE
      < length pk_list + GET_ITERATOR_CHUNK_SIZE ∧
    (pk_list = [] → batches = []) ∧
    (∀ conn,
       compiler_ready (CL := CD) "SQLDeleteCompiler" db conn →
       (DeleteQuery.delete_batch pk_list db r).1 = Returned tt ∧
       executed (DeleteQuery.delete_batch pk_list db r).2
       = executed r ++ (delete_of (self r) db <$> batches)) ∧
    (∀ conn,
       compiler_ready (CL := CU) "SQLUpdateCompiler" db conn →
       (UpdateQuery.clear_related related_field pk_list db u).1
       = Returned tt ∧
       executed (UpdateQuery.clear_related related_field pk_list db u).2
       = executed u ++ (clear_of (self u) related_field db <$> batches)) ∧
    (∀ e,
       compiler_unavailable (CL := CD) "SQLDeleteCompiler" db e →
       pk_list ≠ [] →
       (DeleteQuery.delete_batch pk_list db r).1 = Raised (Foreign e) ∧
       executed (DeleteQuery.delete_batch pk_list db r).2 = executed r) ∧
    (∀ e,
       compiler_unavailable (CL := CU) "SQLUpdateCompiler" db e →
       pk_list ≠ [] →
       (UpdateQuery.clear_related related_field pk_list db u).1
       = Raised (Foreign e) ∧
       executed (UpdateQuery.clear_related related_field pk_list db u).2
       = executed u) ∧
    (pk_list = [] →
     DeleteQuery.delete_batch pk_list db r = (Returned tt, r) ∧
     UpdateQuery.clear_related related_field pk_list db u
     = (Returned tt, u)).
Proof.
  intros Hn. exists (chunks GET_ITERATOR_CHUNK_SIZE pk_list).
  split; [by apply chunks_concat|].
  split; [apply Forall_forall; intros c Hc; by apply chunks_size in Hc|].
  split; [by apply chunks_length|].
  split; [rewrite chunks_length by done; by apply ceil_div_bounds|].
  split; [intros ->; apply chunks_nil|].
  split.
  { intros conn Hready.
    by destruct (delete_batch_run conn pk_list db r Hready Hn)
      as (q' & -> & _). }
  split.
  { intros conn Hready.
    by destruct (clear_related_run conn related_field pk_list db u Hready Hn)
      as (u' & -> & _). }
  split.
  { intros e Hun Hne.
    by destruct (delete_batch_unavailable e pk_list db r Hun Hn Hne)
      as (q' & ->). }
  split.
  { intros e Hun Hne.
    by destruct (clear_related_unavailable e related_field pk_list db u
                   Hun Hn Hne) as (u' & ->). }
  intros ->.
  unfold DeleteQuery.delete_batch, UpdateQuery.clear_related, range.
  case_decide; [lia|]. by destruct r, u.
Qed.

Lemma delete_batch_chunks_witness :
  ∃ batches,
    executed
      (DeleteQuery.delete_batch (W := Sample.tree_where) (ML := Sample.meta)
         (K := {| GET_ITERATOR_CHUNK_SIZE := 2 |})
         (CD := Sample.compilers _)
         [VInt 1; VInt 2; VInt 3; VInt 4; VInt 5] (Some "default")
         {| self := Sample.empty_query "Restaurant"; executed := [] |}).2
    = delete_of (W := Sample.tree_where) (ML := Sample.meta)
        (Sample.empty_query "Restaurant") (Some "default") <$> batches ∧
    concat batches = [VInt 1; VInt 2; VInt 3; VInt 4; VInt 5] ∧
    length batches = 3.
Proof.
  destruct (delete_batch_chunks
              (W := Sample.tree_where) (ML := Sample.meta)
              (K := {| GET_ITERATOR_CHUNK_SIZE := 2 |})
              (CD := Sample.compilers _) (CU := Sample.compilers _)
              [VInt 1; VInt 2; VInt 3; VInt 4; VInt 5] (Some "default")
              {| self := Sample.empty_query "Restaurant"; executed := [] |}
              (Sample.plain_field "owner")
              {| self := Sample.restaurant_update; executed := [] |})
    as (batches & Hcat & _ & Hlen & _ & _ & Hdel & _).
  - simpl. lia.
  - exists batches.
    destruct (Hdel {| conn_alias := Some "default" |}) as [_ Hlog].
    + split; [intros q; reflexivity|].
      intros before e _ _. by exists VNone.
    + split; [exact Hlog|]. split; [exact Hcat|exact Hlen].
Defined.

(** The claim fails where [get_compiler] raises: without a database alias
    [delete_batch] ends in the ValueError of [get_compiler] at the first
    chunk, and no list of chunks that makes up [pk_list] has been
    issued. *)
Lemma delete_batch_chunks_counterexample :
  let pk_list := [VInt 1; VInt 2; VInt 3] in
  let run :=
    DeleteQuery.delete_batch (W := Sample.tree_where) (ML := Sample.meta)
      (K := {| GET_ITERATOR_CHUNK_SIZE := 2 |}) (CD := Sample.compilers _)
      pk_list None
      {| self := Sample.empty_query "Restaurant"; executed := [] |} in
  run.1 = Raised (Foreign "ValueError") ∧
  executed run.2 = [] ∧
  ¬ ∃ batches : list (list value),
      executed run.2
      = delete_of (W := Sample.tree_where) (ML := Sample.meta)
          (Sample.empty_query "Restaurant") None <$> batches ∧
      concat batches = pk_list.
Proof.
  split; [reflexivity|]. split; [reflexivity|].
  intros (batches & Hlog & Hcat).
  change ([] = delete_of (W := Sample.tree_where) (ML := Sample.meta)
                 (Sample.empty_query "Restaurant") None <$> batches)
    in Hlog.
  symmetry in Hlog. apply fmap_nil_inv in Hlog. by subst batches.
Qed.

(** C4. For every field, lookup type and order, when [setup_joins] returns
    a result whose join list ends in [alias] (and [set_extra_mask] leaves
    [select], [select_fields] and [select_related] alone),
    [DateQuery.add_date_select] returns with [select] the single element
    [Date((alias, field.column), lookup_type)], [select_fields] equal to
    [[None]], [select_related] false, [distinct] true, and [order_by] equal
    to [[1]] when [order] is ['ASC'] and to [[-1]] for every other value. *)
Theorem add_date_select_sets
    {W : WhereClass} {QB : QueryBase}
    (field : Field) (lookup_type : string) (order : value) (q : Query)
    (initial : string) (q1 : Query) (result : JoinResult) (q2 : Query)
    (alias : string) :
  (∀ names q0,
     select (set_extra_mask names q0) = select q0 ∧
     select_fields (set_extra_mask names q0) = select_fields q0 ∧
     select_related (set_extra_mask names q0) = select_related q0) →
  get_initial_alias q = (initial, q1) →
  setup_joins [name field] (get_meta q) initial false q1 = (inr result, q2) →
  last (joins result) = Some alias →
  (DateQuery.add_date_select field lookup_type order q).1 = Returned tt ∧
  select (DateQuery.add_date_select field lookup_type order q).2
  = [SelDate {| col := (alias, column field); lookup_type := lookup_type |}] ∧
  select_fields (DateQuery.add_date_select field lookup_type order q).2
  = [None] ∧
  select_related (DateQuery.add_date_select field lookup_type order q).2
  = SR false ∧
  distinct (DateQuery.add_date_select field lookup_type order q).2 = true ∧
  (order = VStr "ASC" →
   order_by (DateQuery.add_date_select field lookup_type order q).2
   = [ByPos 1]) ∧
  (order ≠ VStr "ASC" →
   order_by (DateQuery.add_date_select field lookup_type order q).2
   = [ByPos (-1)]).
Proof.
  intros Hmask Hinit Hjoins Hlast.
  rewrite (add_date_select_run field lookup_type order q initial q1 result q2
             alias Hinit Hjoins Hlast).
  simpl.
  match goal with
  | |- context [set_extra_mask ?names ?q0] =>
      destruct (Hmask names q0) as (-> & -> & ->)
  end.
  repeat split.
  - intros ->. by rewrite decide_True.
  - intros Hne. by rewrite decide_False.
Qed.

Lemma add_date_select_sets_witness :
  order_by
    (DateQuery.add_date_select (W := Sample.tree_where)
       (QB := Sample.query_base)
       (Sample.plain_field "opened") "year" (VStr "DESC")
       (Sample.empty_query "Restaurant")).2
  = [ByPos (-1)].
Proof.
  apply (add_date_select_sets (W := Sample.tree_where)
           (QB := Sample.query_base)
           (Sample.plain_field "opened") "year" (VStr "DESC")
           (Sample.empty_query "Restaurant")
           "Restaurant"
           (set_tables ["Restaurant"] (Sample.empty_query "Restaurant"))
           {| joins := ["Restaurant"] |}
           (set_tables ["Restaurant"] (Sample.empty_query "Restaurant"))
           "Restaurant").
  - intros names q0. repeat split.
  - reflexivity.
  - reflexivity.
  - reflexivity.
  - discriminate.
Defined.


(** C6, as the code has it.  [DeleteQuery.do_query] assigns [[table]] to
    [tables] and the given where clause to [where], leaves every other
    attribute as it was, and then asks for [get_compiler(using)]: when a
    compiler comes back it executes once through it, with [None], and ends
    as that execution does; when [get_compiler] raises, the two assignments
    stay and nothing is executed.  Whatever the batch methods built on
    [do_query] and [UpdateQuery.clear_related] execute is executed through
    the class's compiler on the given alias, and with a compiler whose
    executions return and a positive chunk size they execute exactly one
    query per chunk.  None of these looks at the compiler's connection.
    The GIS [insert_query] does: it reads [compiler.connection] and hands
    it to [insert_values], which passes it to the fields'
    [get_placeholder]; it then executes exactly once, through the insert
    compiler, the query so built, and ends as [execute_sql(return_id)]
    does; when [get_compiler] raises it has executed nothing. *)
Theorem execution_through_compiler_only
    {W : WhereClass} {ML : MetaLayer} {K : Constants} {QB : QueryBase}
    {CD : CompilerLayer Query} {CU : CompilerLayer UpdateQuery.t}
    {CI : CompilerLayer InsertQuery.t} :
  (∀ conn table w db (r : Run Query),
     let q' := set_where w (set_tables [table] (self r)) in
     let e := {| compiler := "SQLDeleteCompiler"; using_ := db;
                 query := q'; arg := VNone |} in
     Query_get_compiler (CompilerLayer := CD) "SQLDeleteCompiler" db q'
     = inr conn →
     DeleteQuery.do_query table w db r
     = (match Compiler_execute_sql (executed r) e with
        | inl err => Raised (Foreign err)
        | inr _ => Returned tt
        end,
        {| self := q'; executed := executed r ++ [e] |}) ∧
     tables q' = [table] ∧ where_ q' = w ∧
     same_but_tables_where (self r) q') ∧
  (∀ err table w db (r : Run Query),
     let q' := set_where w (set_tables [table] (self r)) in
     Query_get_compiler (CompilerLayer := CD) "SQLDeleteCompiler" db q'
     = inl err →
     DeleteQuery.do_query table w db r
     = (Raised (Foreign err), {| self := q'; executed := executed r |})) ∧
  (∀ table w db,
     logs_only (via "SQLDeleteCompiler" db VNone)
       (DeleteQuery.do_query table w db)) ∧
  (∀ pk_list db,
     logs_only (via "SQLDeleteCompiler" db VNone)
       (DeleteQuery.delete_batch pk_list db)) ∧
  (∀ pk_list db,
     logs_only (via "SQLDeleteCompiler" db VNone)
       (DeleteQuery.delete_batch_related pk_list db)) ∧
  (∀ related_field pk_list db,
     logs_only (via "SQLUpdateCompiler" db VNone)
       (UpdateQuery.clear_related related_field pk_list db)) ∧
  (∀ conn pk_list db (r : Run Query),
     compiler_ready (CL := CD) "SQLDeleteCompiler" db conn →
     0 < GET_ITERATOR_CHUNK_SIZE →
     (DeleteQuery.delete_batch pk_list db r).1 = Returned tt ∧
     executed (DeleteQuery.delete_batch pk_list db r).2
     = executed r ++
         (delete_of (self r) db <$> chunks GET_ITERATOR_CHUNK_SIZE pk_list)) ∧
  (∀ conn pk_list db (r : Run Query),
     compiler_ready (CL := CD) "SQLDeleteCompiler" db conn →
     0 < GET_ITERATOR_CHUNK_SIZE →
     (DeleteQuery.delete_batch_related pk_list db r).1 = Returned tt ∧
     executed (DeleteQuery.delete_batch_related pk_list db r).2
     = executed r ++ related_deletes (self r) db pk_list
         ++ m2m_deletes (self r) db pk_list) ∧
  (∀ conn related_field pk_list db (u : Run UpdateQuery.t),
     compiler_ready (CL := CU) "SQLUpdateCompiler" db conn →
     0 < GET_ITERATOR_CHUNK_SIZE →
     (UpdateQuery.clear_related related_field pk_list db u).1
     = Returned tt ∧
     executed (UpdateQuery.clear_related related_field pk_list db u).2
     = executed u ++
         (clear_of (self u) related_field db
            <$> chunks GET_ITERATOR_CHUNK_SIZE pk_list)) ∧
  (∀ (CL1 CL2 : CompilerLayer Query),
     same_but_connection CL1 CL2 →
     (∀ table w db r,
        DeleteQuery.do_query (CD := CL1) table w db r
        = DeleteQuery.do_query (CD := CL2) table w db r) ∧
     (∀ pk_list db r,
        DeleteQuery.delete_batch (CD := CL1) pk_list db r
        = DeleteQuery.delete_batch (CD := CL2) pk_list db r) ∧
     (∀ pk_list db r,
        DeleteQuery.delete_batch_related (CD := CL1) pk_list db r
        = DeleteQuery.delete_batch_related (CD := CL2) pk_list db r)) ∧
  (∀ (CL1 CL2 : CompilerLayer UpdateQuery.t),
     same_but_connection CL1 CL2 →
     ∀ related_field pk_list db u,
       UpdateQuery.clear_related (CU := CL1) related_field pk_list db u
       = UpdateQuery.clear_related (CU := CL2) related_field pk_list db u) ∧
  (∀ conn m values return_id raw_values db,
     Query_get_compiler (CompilerLayer := CI) "SQLInsertCompiler" db
       (InsertQuery.init (Query_init m)) = inr conn →
     let q' :=
       (GeoInsertQuery.insert_values values conn raw_values
          (InsertQuery.init (Query_init m))).2 in
     let e := {| compiler := "SQLInsertCompiler"; using_ := db;
                 query := q'; arg := VBool return_id |} in
     insert_query m values return_id raw_values db
     = (outcome_of (Compiler_execute_sql [] e),
        {| self := q'; executed := [e] |})) ∧
  (∀ err m values return_id raw_values db,
     Query_get_compiler (CompilerLayer := CI) "SQLInsertCompiler" db
       (InsertQuery.init (Query_init m)) = inl err →
     insert_query m values return_id raw_values db
     = (Raised (Foreign err),
        {| self := InsertQuery.init (Query_init m); executed := [] |})).
Proof.
  split.
  { intros conn table w db r q' e Hget.
    split; [by apply (do_query_executes conn)|]. by repeat split. }
  split.
  { intros err table w db r q' Hget. by apply do_query_fails. }
  split; [intros; apply do_query_logs|].
  split; [intros; apply delete_batch_logs|].
  split; [intros; apply delete_batch_related_logs|].
  split; [intros; apply clear_related_logs|].
  split.
  { intros conn pk_list db r Hready Hn.
    by destruct (delete_batch_run conn pk_list db r Hready Hn)
      as (q' & -> & _). }
  split.
  { intros conn pk_list db r Hready Hn.
    by destruct (delete_batch_related_run conn pk_list db r Hready Hn)
      as (q' & -> & _). }
  split.
  { intros conn rf pk_list db u Hready Hn.
    by destruct (clear_related_run conn rf pk_list db u Hready Hn)
      as (u' & -> & _). }
  split.
  { intros CL1 CL2 Hsame. split; [|split]; intros.
    - by apply do_query_connection_free.
    - by apply delete_batch_connection_free.
    - by apply delete_batch_related_connection_free. }
  split.
  { intros CL1 CL2 Hsame rf pk_list db u.
    by apply clear_related_connection_free. }
  split.
  { intros conn m values return_id raw_values db Hget.
    by apply insert_query_run. }
  intros err m values return_id raw_values db Hget.
  by apply insert_query_fails.
Qed.

Lemma execution_through_compiler_only_witness :
  executed
    (DeleteQuery.do_query (W := Sample.tree_where)
       (CD := Sample.compilers _) "restaurant"
       (where_class (WhereClass := Sample.tree_where)) (Some "default")
       {| self := Sample.empty_query "Restaurant"; executed := [] |}).2
  = [{| compiler := "SQLDeleteCompiler"; using_ := Some "default";
        query :=
          set_tables ["restaurant"] (Sample.empty_query "Restaurant");
        arg := VNone |}].
Proof.
  destruct (execution_through_compiler_only
              (W := Sample.tree_where) (ML := Sample.meta)
              (K := Sample.constants) (QB := Sample.query_base)
              (CD := Sample.compilers _) (CU := Sample.compilers _)
              (CI := Sample.compilers _)) as (Hdo & _).
  destruct (Hdo {| conn_alias := Some "default" |} "restaurant"
              (where_class (WhereClass := Sample.tree_where))
              (Some "default")
              {| self := Sample.empty_query "Restaurant"; executed := [] |})
    as (Hrun & _).
  - reflexivity.
  - rewrite Hrun. reflexivity.
Defined.

(** The claim fails for [insert_query]: it reads the connection of the
    compiler and builds the query with it.  With a geometry column whose
    placeholder depends on the backend, two compiler layers that differ
    only in the connection they are bound to make [insert_query] execute
    different queries. *)
Lemma execution_through_compiler_only_counterexample :
  let items := [(Sample.dialect_field "location", VStr "POINT(0 0)")] in
  let postgis := {| conn_alias := Some "postgis" |} in
  let mysql := {| conn_alias := Some "mysql" |} in
  let run conn :=
    insert_query (W := Sample.tree_where) (QB := Sample.query_base)
      (CI := Sample.compilers_on conn _) "City" items false false
      (Some "default") in
  same_but_connection
    (Sample.compilers_on postgis (InsertQuery.t (W := Sample.tree_where)))
    (Sample.compilers_on mysql (InsertQuery.t (W := Sample.tree_where))) ∧
  InsertQuery.values (self (run postgis).2) = [VStr "ST_GeomFromEWKB(%s)"] ∧
  InsertQuery.values (self (run mysql).2) = [VStr "GeomFromText(%s)"] ∧
  run postgis ≠ run mysql.
Proof.
  split; [by split|]. split; [reflexivity|]. split; [reflexivity|].
  intros Heq.
  assert (InsertQuery.values
            (self (insert_query (W := Sample.tree_where)
                     (QB := Sample.query_base)
                     (CI := Sample.compilers_on
                              {| conn_alias := Some "postgis" |} _)
                     "City"
                     [(Sample.dialect_field "location", VStr "POINT(0 0)")]
                     false false (Some "default")).2)
          = [VStr "GeomFromText(%s)"]) as Hvalues
    by (rewrite Heq; reflexivity).
  discriminate Hvalues.
Qed.





(** * Further properties *)

(** ** Loops and offsets *)

Lemma bind_raised_eq {S A B} (m : M S A) (k : A → M S B) s e s' :
  m s = (Raised e, s') → (m ≫= k) s = (Raised e, s').
Proof. intros E. unfold mbind, M_bind. by rewrite E. Qed.

Lemma for_each_snoc {S X} (l : list X) (x : X) (body : X → M S unit) s :
  for_each (l ++ [x]) body s =
  match for_each l body s with
  | (Returned _, s') => body x s'
  | (Raised e, s') => (Raised e, s')
  end.
Proof.
  revert s. induction l as [|y l IH]; intros s; simpl.
  - unfold mbind, M_bind, mret, M_ret.
    by destruct (body x s) as [[[]|e] s'].
  - unfold mbind, M_bind.
    destruct (body y s) as [[[]|e] s']; [apply IH|done].
Qed.

Lemma snoc_case {X} (l : list X) : l = [] ∨ ∃ l' x, l = l' ++ [x].
Proof.
  induction l as [|y l IH] using rev_ind; [by left|right; by eexists _, _].
Qed.

Lemma range_from_lookup stop step fuel start i :
  0 < step → stop - start ≤ fuel → start + i * step < stop →
  range_from fuel start stop step !! i = Some (start + i * step).
Proof.
  intros Hstep. revert start i.
  induction fuel as [|fuel IH]; intros start i Hfuel Hi; [exfalso; nia|].
  simpl. rewrite decide_True by nia.
  destruct i as [|i]; simpl.
  - f_equal. lia.
  - rewrite IH by nia. f_equal. lia.
Qed.

Lemma chunks_lookup {A} (l : list A) n i :
  0 < n → i * n < length l →
  chunks n l !! i = Some (take n (drop (i * n) l)).
Proof.
  intros Hn Hi. unfold chunks.
  rewrite list_lookup_fmap, range_from_lookup by lia. simpl.
  by rewrite slice_take_drop.
Qed.

Lemma chunks_is_nil {A} (l : list A) n : 0 < n → chunks n l = [] → l = [].
Proof.
  intros Hn Hnil. rewrite <- (chunks_concat l n Hn). by rewrite Hnil.
Qed.

(** ** The queries of the batch loops, one by one *)

(** X1. With a positive chunk size and when [get_compiler(using)] returns
    a compiler whose executions return, the query number [i] that
    [delete_batch] issues, and the one [clear_related] issues, filters on
    [pk_list[i*size : (i+1)*size]]; that chunk is exactly [size] long
    whenever [(i+1)*size] does not exceed [len(pk_list)]. *)
Theorem delete_batch_nth_query
    {W : WhereClass} {ML : MetaLayer} {K : Constants}
    {CD : CompilerLayer Query} {CU : CompilerLayer UpdateQuery.t}
    (conn conn' : Connection)
    (pk_list : list value) (db : DB) (r : Run Query)
    (related_field : Field) (u : Run UpdateQuery.t) (i : nat) :
  compiler_ready (CL := CD) "SQLDeleteCompiler" db conn →
  compiler_ready (CL := CU) "SQLUpdateCompiler" db conn' →
  0 < GET_ITERATOR_CHUNK_SIZE →
  i * GET_ITERATOR_CHUNK_SIZE < length pk_list →
  let chunk :=
    take GET_ITERATOR_CHUNK_SIZE (drop (i * GET_ITERATOR_CHUNK_SIZE) pk_list)
  in
  executed (DeleteQuery.delete_batch pk_list db r).2
    !! (length (executed r) + i)
  = Some (delete_of (self r) db chunk) ∧
  executed (UpdateQuery.clear_related related_field pk_list db u).2
    !! (length (executed u) + i)
  = Some (clear_of (self u) related_field db chunk) ∧
  length chunk
  = GET_ITERATOR_CHUNK_SIZE `min`
      (length pk_list - i * GET_ITERATOR_CHUNK_SIZE) ∧
  (i * GET_ITERATOR_CHUNK_SIZE + GET_ITERATOR_CHUNK_SIZE ≤ length pk_list →
   length chunk = GET_ITERATOR_CHUNK_SIZE).
Proof.
  intros Hready Hready' Hn Hi chunk.
  destruct (delete_batch_run conn pk_list db r Hready Hn) as (q' & -> & _).
  destruct (clear_related_run conn' related_field pk_list db u Hready' Hn)
    as (u' & -> & _).
  simpl.
  rewrite (lookup_app_r (executed r)), (lookup_app_r (executed u)) by lia.
  replace (length (executed r) + i - length (executed r)) with i by lia.
  replace (length (executed u) + i - length (executed u)) with i by lia.
  rewrite !list_lookup_fmap, chunks_lookup by done. simpl.
  assert (length chunk
          = GET_ITERATOR_CHUNK_SIZE `min`
              (length pk_list - i * GET_ITERATOR_CHUNK_SIZE)) as Hlen.
  { subst chunk. by rewrite length_take, length_drop. }
  repeat split; [done|]. intros Hfull. lia.
Qed.

Lemma delete_batch_nth_query_witness :
  executed
    (DeleteQuery.delete_batch (W := Sample.tree_where) (ML := Sample.meta)
       (K := {| GET_ITERATOR_CHUNK_SIZE := 2 |})
       (CD := Sample.compilers _)
       [VInt 1; VInt 2; VInt 3; VInt 4; VInt 5] (Some "default")
       {| self := Sample.empty_query "Restaurant"; executed := [] |}).2
    !! 2
  = Some (delete_of (W := Sample.tree_where) (ML := Sample.meta)
            (Sample.empty_query "Restaurant") (Some "default") [VInt 5]).
Proof.
  apply (delete_batch_nth_query
           (W := Sample.tree_where) (ML := Sample.meta)
           (K := {| GET_ITERATOR_CHUNK_SIZE := 2 |})
           (CD := Sample.compilers _) (CU := Sample.compilers _)
           {| conn_alias := Some "default" |}
           {| conn_alias := Some "default" |}
           [VInt 1; VInt 2; VInt 3; VInt 4; VInt 5] (Some "default")
           {| self := Sample.empty_query "Restaurant"; executed := [] |}
           (Sample.plain_field "owner")
           {| self := Sample.restaurant_update; executed := [] |} 2).
  - split; [intros q; reflexivity|].
    intros before e _ _. by exists VNone.
  - split; [intros q; reflexivity|].
    intros before e _ _. by exists VNone.
  - simpl. lia.
  - simpl. lia.
Defined.


Lemma for_each_skip {S X} (body : X → M S unit) (l : list X) s :
  (∀ x, body x s = (Returned tt, s)) → for_each l body s = (Returned tt, s).
Proof.
  intros Hbody. induction l as [|x l IH]; [done|].
  simpl. by rewrite (bind_returned _ _ _ _ _ (Hbody x)).
Qed.

Lemma concat_fmap_length {X Y Z} (f : X → Y → Z) (l : list X) (k : list Y) :
  length (concat ((λ x, f x <$> k) <$> l)) = length l * length k.
Proof.
  induction l as [|x l IH]; [done|].
  rewrite fmap_cons. cbn [concat].
  rewrite length_app, length_fmap, IH. simpl. lia.
Qed.

Lemma last_chunk {A} (l : list A) n :
  0 < n → l ≠ [] →
  last (chunks n l)
  = Some (take n (drop ((ceil_div (length l) n - 1) * n) l)).
Proof.
  intros Hn Hl. rewrite last_lookup, chunks_length by done.
  pose proof (ceil_div_bounds (length l) n Hn) as Hb.
  assert (0 < length l) by (destruct l; [done|simpl; lia]).
  change ((length l + n - 1) / n) with (ceil_div (length l) n).
  replace (Init.Nat.pred (ceil_div (length l) n))
    with (ceil_div (length l) n - 1) by lia.
  apply chunks_lookup; [done|nia].
Qed.

(** ** What the batch methods leave behind *)

(** X2. With a positive chunk size and when [get_compiler(using)] returns
    a compiler whose executions return, [delete_batch] on a non-empty
    [pk_list] leaves the query exactly as it was sent in the last
    execution: [tables] is the model's table and [where] filters on the
    final chunk [pk_list[(k-1)*size:]], [k] being the number of chunks;
    every other attribute is untouched. *)
Theorem delete_batch_leaves_last_chunk
    {W : WhereClass} {ML : MetaLayer} {K : Constants}
    {CD : CompilerLayer Query} (conn : Connection)
    (pk_list : list value) (db : DB) (r : Run Query) :
  compiler_ready (CL := CD) "SQLDeleteCompiler" db conn →
  0 < GET_ITERATOR_CHUNK_SIZE → pk_list ≠ [] →
  let k := ceil_div (length pk_list) GET_ITERATOR_CHUNK_SIZE in
  let chunk :=
    take GET_ITERATOR_CHUNK_SIZE
      (drop ((k - 1) * GET_ITERATOR_CHUNK_SIZE) pk_list) in
  self (DeleteQuery.delete_batch pk_list db r).2
  = query (delete_of (self r) db chunk) ∧
  last (executed (DeleteQuery.delete_batch pk_list db r).2)
  = Some (delete_of (self r) db chunk) ∧
  chunk ≠ [] ∧
  same_but_tables_where (self r)
    (self (DeleteQuery.delete_batch pk_list db r).2).
Proof.
  intros Hready Hn Hne k chunk.
  pose proof (last_chunk pk_list _ Hn Hne) as Hlast. fold k chunk in Hlast.
  clearbody chunk. clear k.
  pose proof (chunks_size pk_list _ chunk Hn (last_Some_elem_of _ _ Hlast))
    as Hsz.
  destruct (delete_batch_run conn pk_list db r Hready Hn)
    as (q' & Hrun & Hq').
  assert (self (DeleteQuery.delete_batch pk_list db r).2
          = query (delete_of (self r) db chunk)) as Hself.
  { clear Hrun Hq' q'. unfold DeleteQuery.delete_batch, range.
    case_decide; [lia|]. erewrite bind_returned by reflexivity.
    unfold chunks in Hlast. rewrite fmap_last in Hlast.
    destruct (last (range_from _ _ _ _)) as [o|] eqn:Hoff; [|done].
    apply last_Some in Hoff as [offsets Hsnoc]. injection Hlast as Hlast.
    rewrite Hsnoc, for_each_snoc.
    destruct (delete_batch_loop conn pk_list db (self r) offsets r Hready)
      as (q1 & Hloop & Hq1); [apply same_but_tables_where_refl|].
    match goal with
    | |- context [for_each offsets ?body r] =>
        destruct (for_each offsets body r) as [o1 r1]
    end.
    injection Hloop as -> ->.
    match goal with
    | |- self (?b).2 = _ =>
        rewrite (do_query_run conn _ _ db _ Hready : b = _)
    end.
    simpl. rewrite Hlast.
    change (query (delete_of q1 db chunk)
            = query (delete_of (self r) db chunk)).
    by rewrite (delete_of_same (self r) q1). }
  split; [done|]. rewrite Hrun in *. simpl in *.
  split; [by rewrite last_app, fmap_last, Hlast|].
  split; [|by subst].
  intros Hnil. rewrite Hnil in Hsz. simpl in Hsz. lia.
Qed.

Lemma delete_batch_leaves_last_chunk_witness :
  where_
    (self
       (DeleteQuery.delete_batch (W := Sample.tree_where) (ML := Sample.meta)
          (K := {| GET_ITERATOR_CHUNK_SIZE := 2 |})
          (CD := Sample.compilers _)
          [VInt 1; VInt 2; VInt 3; VInt 4; VInt 5] (Some "default")
          {| self := Sample.empty_query "Restaurant"; executed := [] |}).2)
  = in_clause (W := Sample.tree_where) "id" (Sample.plain_field "id")
      [VInt 5].
Proof.
  pose proof (delete_batch_leaves_last_chunk
                (W := Sample.tree_where) (ML := Sample.meta)
                (K := {| GET_ITERATOR_CHUNK_SIZE := 2 |})
                (CD := Sample.compilers _)
                {| conn_alias := Some "default" |}
                [VInt 1; VInt 2; VInt 3; VInt 4; VInt 5] (Some "default")
                {| self := Sample.empty_query "Restaurant"; executed := [] |})
    as Hlast.
  destruct Hlast as (Hself & _).
  - split; [intros q; reflexivity|].
    intros before e _ _. by exists VNone.
  - simpl. lia.
  - discriminate.
  - rewrite Hself. reflexivity.
Defined.



(** X4. With a positive chunk size and when [get_compiler(using)] returns
    a compiler whose executions return, [delete_batch_related] returns
    having issued, in this order: for every related many-to-many object whose
    field is not a generic relation, one delete on the field's join table
    per chunk of [pk_list], filtering the reverse column; then for every
    many-to-many field of the model, one delete on its join table per
    chunk, filtering its own column, with the content-type constraint
    added when the field's extra where node is true.  That makes
    (non-generic related fields + many-to-many fields) times
    ceil(len(pk_list) / size) queries, and the query object is changed in
    [tables] and [where] only. *)
Theorem delete_batch_related_queries
    {W : WhereClass} {ML : MetaLayer} {K : Constants}
    {CD : CompilerLayer Query} (conn : Connection)
    (pk_list : list value) (db : DB) (r : Run Query) :
  compiler_ready (CL := CD) "SQLDeleteCompiler" db conn →
  0 < GET_ITERATOR_CHUNK_SIZE →
  (DeleteQuery.delete_batch_related pk_list db r).1 = Returned tt ∧
  executed (DeleteQuery.delete_batch_related pk_list db r).2
  = executed r ++ related_deletes (self r) db pk_list
      ++ m2m_deletes (self r) db pk_list ∧
  length (related_deletes (self r) db pk_list
            ++ m2m_deletes (self r) db pk_list)
  = (length (filter (λ field, generic field = false)
               (get_all_related_many_to_many_objects (model (self r))))
     + length (many_to_many (model (self r))))
    * ceil_div (length pk_list) GET_ITERATOR_CHUNK_SIZE ∧
  same_but_tables_where (self r)
    (self (DeleteQuery.delete_batch_related pk_list db r).2).
Proof.
  intros Hready Hn.
  destruct (delete_batch_related_run conn pk_list db r Hready Hn)
    as (q' & -> & Hq').
  simpl. split; [done|]. split; [done|]. split; [|done].
  unfold related_deletes, m2m_deletes.
  rewrite length_app.
  rewrite (concat_fmap_length
             (λ field chunk,
                delete_exec (self r) db (m2m_db_table field)
                  (in_clause (m2m_reverse_name field) field chunk))).
  rewrite (concat_fmap_length
             (λ f chunk,
                delete_exec (self r) db (m2m_db_table f)
                  (m2m_where (model (self r)) f chunk))).
  rewrite chunks_length by done. unfold ceil_div. lia.
Qed.

Lemma delete_batch_related_queries_witness :
  length
    (executed
       (DeleteQuery.delete_batch_related (W := Sample.tree_where)
          (ML := Sample.meta) (K := {| GET_ITERATOR_CHUNK_SIZE := 2 |})
          (CD := Sample.compilers _)
          [VInt 1; VInt 2; VInt 3] (Some "default")
          {| self := Sample.empty_query "Restaurant"; executed := [] |}).2)
  = 2.
Proof.
  destruct (delete_batch_related_queries
              (W := Sample.tree_where) (ML := Sample.meta)
              (K := {| GET_ITERATOR_CHUNK_SIZE := 2 |})
              (CD := Sample.compilers _)
              {| conn_alias := Some "default" |}
              [VInt 1; VInt 2; VInt 3] (Some "default")
              {| self := Sample.empty_query "Restaurant"; executed := [] |})
    as (_ & Hlog & _).
  - split; [intros q; reflexivity|].
    intros before e _ _. by exists VNone.
  - simpl. lia.
  - rewrite Hlog. reflexivity.
Defined.

(** X5. With a positive chunk size and an empty [pk_list],
    [delete_batch_related], [delete_batch] and [clear_related] return
    without issuing any query and leave the query object exactly as it
    was. *)
Theorem empty_pk_list_is_a_no_op
    {W : WhereClass} {ML : MetaLayer} {K : Constants}
    {CD : CompilerLayer Query} {CU : CompilerLayer UpdateQuery.t}
    (db : DB) (r : Run Query) (related_field : Field)
    (u : Run UpdateQuery.t) :
  0 < GET_ITERATOR_CHUNK_SIZE →
  DeleteQuery.delete_batch_related [] db r = (Returned tt, r) ∧
  DeleteQuery.delete_batch [] db r = (Returned tt, r) ∧
  UpdateQuery.clear_related related_field [] db u = (Returned tt, u).
Proof.
  intros Hn.
  assert (∀ Q (k : list nat → M (Run Q) unit) (s : Run Q),
            k [] s = (Returned tt, s) →
            (range 0 (length (@nil value)) GET_ITERATOR_CHUNK_SIZE ≫= k) s
            = (Returned tt, s)) as Hrange.
  { intros Q k s Hk. unfold range. case_decide; [lia|].
    by erewrite bind_returned by reflexivity. }
  split; [|split].
  - unfold DeleteQuery.delete_batch_related.
    rewrite (bind_returned _ _ r r r) by reflexivity.
    erewrite bind_returned.
    + apply for_each_skip. intros f. by apply Hrange.
    + apply for_each_skip. intros field.
      destruct (generic field); simpl; [done|by apply Hrange].
  - unfold DeleteQuery.delete_batch. by apply Hrange.
  - unfold UpdateQuery.clear_related. by apply Hrange.
Qed.

Lemma empty_pk_list_is_a_no_op_witness :
  DeleteQuery.delete_batch_related (W := Sample.tree_where)
    (ML := Sample.meta) (K := Sample.constants) (CD := Sample.compilers _)
    [] None {| self := Sample.empty_query "Restaurant"; executed := [] |}
  = (Returned tt,
     {| self := Sample.empty_query "Restaurant"; executed := [] |}).
Proof.
  apply (empty_pk_list_is_a_no_op
           (W := Sample.tree_where) (ML := Sample.meta)
           (K := Sample.constants)
           (CD := Sample.compilers _) (CU := Sample.compilers _)
           None {| self := Sample.empty_query "Restaurant"; executed := [] |}
           (Sample.plain_field "owner")
           {| self := Sample.restaurant_update; executed := [] |}).
  simpl. lia.
Defined.

(** X6. When every name of the dictionary resolves to a direct field that
    is not many-to-many, [add_update_values] returns, and then: [values] has
    gained, in iteration order, the triple [(field, None, value)] of each
    name that resolves to a field of the model itself; under each ancestor
    model, [related_updates] has gained, in iteration order, the triples of
    the names that resolve to that ancestor's fields (the entry is created
    if it was missing); entries of other models, [related_ids] and the base
    attributes are untouched. *)
Theorem add_update_values_on_success
    {W : WhereClass} {ML : MetaLayer}
    (values : list (string * value)) (q : UpdateQuery.t) :
  Forall (updatable (model (UpdateQuery.base q))) values →
  (UpdateQuery.add_update_values values q).1 = Returned tt ∧
  UpdateQuery.values (UpdateQuery.add_update_values values q).2
  = UpdateQuery.values q
      ++ omap (local_triple (model (UpdateQuery.base q))) values ∧
  (∀ k,
     UpdateQuery.related_updates (UpdateQuery.add_update_values values q).2
       !! k
     = grow (UpdateQuery.related_updates q !! k)
         (omap (ancestor_triple (model (UpdateQuery.base q)) k) values)) ∧
  UpdateQuery.base (UpdateQuery.add_update_values values q).2
  = UpdateQuery.base q ∧
  UpdateQuery.related_ids (UpdateQuery.add_update_values values q).2
  = UpdateQuery.related_ids q.
Proof.
  intros Hall. rewrite add_update_values_run.
  pose proof (add_update_values_loop_effect values [] q) as Heff.
  pose proof (add_update_values_loop_run values [] q) as Hrun.
  cbv zeta in Heff, Hrun.
  destruct (UpdateQuery.add_update_values_loop values [] q) as [[vs|e] q'];
    simpl in *.
  - destruct Heff as (-> & _ & Hru).
    destruct Hrun as (Hb & Hv & Hi & _).
    split; [done|]. split; [by rewrite Hv|]. by repeat split.
  - destruct Heff as (prefix & item & rest & -> & _ & _ & Hitem).
    apply not_updatable_item in Hitem. destruct Hitem.
    apply Forall_app in Hall as [_ Hall]. by apply Forall_cons in Hall as [? _].
Qed.

Lemma add_update_values_on_success_witness :
  UpdateQuery.related_updates
    (UpdateQuery.add_update_values (W := Sample.tree_where)
       (ML := Sample.meta)
       [("name", VStr "Luigi"); ("serves_pizza", VBool true)]
       Sample.restaurant_update).2 !! "Place"
  = Some [(Sample.plain_field "name", None, VStr "Luigi")].
Proof.
  assert (Forall (updatable (ML := Sample.meta) "Restaurant")
            [("name", VStr "Luigi"); ("serves_pizza", VBool true)]) as Hall.
  { repeat constructor; try (by eexists);
      intros (f & m & d & m2 & [= <- <- <- <-] & [?|?]); discriminate. }
  destruct (add_update_values_on_success
              (W := Sample.tree_where) (ML := Sample.meta)
              [("name", VStr "Luigi"); ("serves_pizza", VBool true)]
              Sample.restaurant_update Hall) as (_ & _ & Hru & _).
  rewrite Hru. reflexivity.
Defined.

(** X7. When [add_update_values] raises, it has stopped at the first item,
    in iteration order, that is not accepted: every item before it was
    accepted, a FieldError carries the field that item resolves to (a
    failed lookup carries the lookup's own exception), and the items after
    it have had no effect: [values] is unchanged and [related_updates] holds
    the ancestor triples of the items before the offending one only. *)
Theorem add_update_values_stops_at_first_offender
    {W : WhereClass} {ML : MetaLayer}
    (values : list (string * value)) (q : UpdateQuery.t) (e : exn) :
  (UpdateQuery.add_update_values values q).1 = Raised e →
  ∃ prefix item rest,
    values = prefix ++ item :: rest ∧
    Forall (updatable (model (UpdateQuery.base q))) prefix ∧
    ¬ updatable (model (UpdateQuery.base q)) item ∧
    match get_field_by_name (model (UpdateQuery.base q)) item.1 with
    | inl e' => e = Foreign e'
    | inr (field, _, direct, m2m) =>
        e = FieldError field ∧ (direct = false ∨ m2m = true)
    end ∧
    UpdateQuery.values (UpdateQuery.add_update_values values q).2
    = UpdateQuery.values q ∧
    ∀ k,
      UpdateQuery.related_updates
        (UpdateQuery.add_update_values values q).2 !! k
      = grow (UpdateQuery.related_updates q !! k)
          (omap (ancestor_triple (model (UpdateQuery.base q)) k) prefix).
Proof.
  rewrite add_update_values_run.
  pose proof (add_update_values_loop_effect values [] q) as Heff.
  pose proof (add_update_values_loop_run values [] q) as Hrun.
  cbv zeta in Heff, Hrun.
  destruct (UpdateQuery.add_update_values_loop values [] q) as [[vs|e'] q'];
    simpl in *; [done|].
  intros [= ->].
  destruct Heff as (prefix & item & rest & -> & Hall & Hru & Hitem).
  destruct Hrun as (_ & Hv & _).
  exists prefix, item, rest.
  split; [done|]. split; [done|].
  split; [by eapply not_updatable_item|]. by repeat split.
Qed.

Lemma add_update_values_stops_at_first_offender_witness :
  ∃ prefix rest,
    [("name", VStr "Luigi"); ("tags", VInt 1); ("serves_pizza", VBool true)]
    = prefix ++ ("tags", VInt 1) :: rest ∧
    UpdateQuery.values
      (UpdateQuery.add_update_values (W := Sample.tree_where)
         (ML := Sample.meta)
         [("name", VStr "Luigi"); ("tags", VInt 1);
          ("serves_pizza", VBool true)]
         Sample.restaurant_update).2
    = [].
Proof.
  destruct (add_update_values_stops_at_first_offender
              (W := Sample.tree_where) (ML := Sample.meta)
              [("name", VStr "Luigi"); ("tags", VInt 1);
               ("serves_pizza", VBool true)]
              Sample.restaurant_update (FieldError Sample.tags) eq_refl)
    as (prefix & item & rest & Hsplit & _ & _ & _ & Hv & _).
  exists [("name", VStr "Luigi")], [("serves_pizza", VBool true)].
  split; [reflexivity|exact Hv].
Defined.

(** ** get_related_updates *)

Section get_related_updates.
Context {W : WhereClass} {ML : MetaLayer} {QB : QueryBase} {FL : FilterLayer}.

Lemma get_related_updates_items (q : UpdateQuery.t) :
  UpdateQuery.get_related_updates q
  = UpdateQuery.related_update_query q
      <$> map_to_list (UpdateQuery.related_updates q).
Proof.
  unfold UpdateQuery.get_related_updates. case_decide as Hsize; [|done].
  apply map_size_empty_iff in Hsize. rewrite Hsize.
  by rewrite map_to_list_empty.
Qed.

(** The ancestor models of the items: those with an ancestor triple. *)
Lemma ancestor_triple_nonempty cls k (items : list (string * value)) :
  omap (ancestor_triple cls k) items ≠ []
  ↔ k ∈ omap (ancestor_of cls) items.
Proof.
  induction items as [|item items IH].
  - simpl. split; [done|by intros ?%elem_of_nil].
  - rewrite !omap_cons_eq. unfold ancestor_triple at 1, ancestor_of at 1.
    destruct (get_field_by_name cls item.1)
      as [e|[[[field [m|]] direct] m2m]]; try done.
    case_decide as Hk.
    + subst. split; [intros _; apply list_elem_of_here|done].
    + rewrite IH, elem_of_cons.
      split; [by right|by intros [->|?]].
Qed.
End get_related_updates.

(** X8. [get_related_updates] returns one update query per ancestor model
    recorded in [related_updates], none when the dictionary is empty.  The
    query for a model is a fresh [UpdateQuery] of that model whose [values]
    are the triples recorded under it and whose own [related_updates] is
    empty; it gets the filter [pk__in=related_ids] exactly when
    [related_ids] is a non-empty list. *)
Theorem get_related_updates_one_per_ancestor
    {W : WhereClass} {QB : QueryBase} {FL : FilterLayer}
    (q : UpdateQuery.t) :
  length (UpdateQuery.get_related_updates q)
  = size (UpdateQuery.related_updates q) ∧
  (UpdateQuery.related_updates q = ∅ →
   UpdateQuery.get_related_updates q = []) ∧
  (∀ u, u ∈ UpdateQuery.get_related_updates q ↔
     ∃ m l, UpdateQuery.related_updates q !! m = Some l ∧
            u = UpdateQuery.related_update_query q (m, l)) ∧
  (∀ m l,
     UpdateQuery.values (UpdateQuery.related_update_query q (m, l)) = l ∧
     UpdateQuery.related_updates (UpdateQuery.related_update_query q (m, l))
     = ∅ ∧
     UpdateQuery.related_ids (UpdateQuery.related_update_query q (m, l))
     = None ∧
     UpdateQuery.base (UpdateQuery.related_update_query q (m, l))
     = match UpdateQuery.related_ids q with
       | Some (id :: ids) => add_filter ("pk__in", id :: ids) (Query_init m)
       | _ => Query_init m
       end).
Proof.
  rewrite get_related_updates_items.
  split; [by rewrite length_fmap, length_map_to_list|].
  split; [intros ->; by rewrite map_to_list_empty|].
  split.
  - intros u. rewrite list_elem_of_fmap. split.
    + intros ([m l] & -> & Hin%elem_of_map_to_list). by exists m, l.
    + intros (m & l & Hin & ->). exists (m, l).
      split; [done|by apply elem_of_map_to_list].
  - intros m l. unfold UpdateQuery.related_update_query.
    by destruct (UpdateQuery.related_ids q) as [[|id ids]|].
Qed.

(** X9. After a successful [add_update_values] on an update query without
    pending related updates, [get_related_updates] returns exactly one
    query per distinct ancestor model among the named fields, and the query
    for an ancestor carries, in iteration order, the triples of the names
    that resolve to that ancestor's fields. *)
Theorem related_updates_after_add_update_values
    {W : WhereClass} {ML : MetaLayer} {QB : QueryBase} {FL : FilterLayer}
    (values : list (string * value)) (q : UpdateQuery.t) :
  Forall (updatable (model (UpdateQuery.base q))) values →
  UpdateQuery.related_updates q = ∅ →
  let cls := model (UpdateQuery.base q) in
  let q' := (UpdateQuery.add_update_values values q).2 in
  length (UpdateQuery.get_related_updates q')
  = size (list_to_set (omap (ancestor_of cls) values) : gset Model) ∧
  ∀ u, u ∈ UpdateQuery.get_related_updates q' ↔
    ∃ m, m ∈ omap (ancestor_of cls) values ∧
         u = UpdateQuery.related_update_query q'
               (m, omap (ancestor_triple cls m) values).
Proof.
  intros Hall Hempty cls q'.
  destruct (add_update_values_on_success values q Hall)
    as (_ & _ & Hru & _ & _).
  fold q' cls in Hru.
  assert (∀ k, UpdateQuery.related_updates q' !! k
               = grow None (omap (ancestor_triple cls k) values)) as Hru'.
  { intros k. rewrite Hru, Hempty. by rewrite lookup_empty. }
  clear Hru.
  assert (∀ k l, UpdateQuery.related_updates q' !! k = Some l ↔
                 k ∈ omap (ancestor_of cls) values ∧
                 l = omap (ancestor_triple cls k) values) as Hlookup.
  { intros k l. rewrite Hru', <- ancestor_triple_nonempty.
    destruct (omap (ancestor_triple cls k) values) as [|t ts]; simpl.
    - split; [done|by intros [? _]].
    - split; [by intros [= <-]|by intros [_ ->]]. }
  destruct (get_related_updates_one_per_ancestor q') as (Hlen & _ & Hin & _).
  split.
  - rewrite Hlen, <- size_dom. f_equal. apply set_eq. intros k.
    rewrite elem_of_dom, elem_of_list_to_set. split.
    + intros [l Hl]. by apply Hlookup in Hl as [? _].
    + intros Hk. eexists. by apply Hlookup.
  - intros u. rewrite Hin. split.
    + intros (m & l & Hl%Hlookup & ->). destruct Hl as [? ->]. by exists m.
    + intros (m & Hm & ->). eexists m, _. split; [by apply Hlookup|done].
Qed.

Lemma related_updates_after_add_update_values_witness :
  length
    (UpdateQuery.get_related_updates (W := Sample.tree_where)
       (QB := Sample.query_base) (FL := Sample.filters)
       (UpdateQuery.add_update_values (W := Sample.tree_where)
          (ML := Sample.meta)
          [("name", VStr "Luigi"); ("serves_pizza", VBool true)]
          Sample.restaurant_update).2)
  = 1.
Proof.
  assert (Forall (updatable (ML := Sample.meta) "Restaurant")
            [("name", VStr "Luigi"); ("serves_pizza", VBool true)]) as Hall.
  { repeat constructor; try (by eexists);
      intros (f & m & d & m2 & [= <- <- <- <-] & [?|?]); discriminate. }
  destruct (related_updates_after_add_update_values
              (W := Sample.tree_where) (ML := Sample.meta)
              (QB := Sample.query_base) (FL := Sample.filters)
              [("name", VStr "Luigi"); ("serves_pizza", VBool true)]
              Sample.restaurant_update Hall eq_refl) as [Hlen _].
  rewrite Hlen. reflexivity.
Defined.

(** ** More on insert_values *)

Section insert_values_more.
Context {W : WhereClass}.
Implicit Types (q : InsertQuery.t) (items : list (Field * value)).

Lemma insert_values_raw_run items conn q :
  InsertQuery.insert_values items conn true q =
  (Returned tt,
   {| InsertQuery.base := InsertQuery.base q;
      InsertQuery.columns := InsertQuery.columns q ++ columns_of items;
      InsertQuery.values := InsertQuery.values q ++ (snd <$> items);
      InsertQuery.params := InsertQuery.params q;
      InsertQuery.return_id := InsertQuery.return_id q |}).
Proof.
  unfold InsertQuery.insert_values.
  erewrite bind_returned by apply insert_values_loop_run.
  reflexivity.
Qed.

Lemma filter_all {X} (P : X → Prop) `{!∀ x, Decision (P x)} (l : list X) :
  Forall P l → filter P l = l.
Proof.
  induction 1 as [|x l Hx Hl IH]; [done|].
  by rewrite filter_cons, decide_True, IH.
Qed.
End insert_values_more.

(** X10. Calling [insert_values] twice is the same as calling it once on
    the concatenated pairs, for the base class and for the GIS class, with
    or without [raw_values]: the method only ever appends to [columns],
    [values] and [params]. *)
Theorem insert_values_accumulates {W : WhereClass}
    (a b : list (Field * value)) (conn : Connection) (raw_values : bool)
    (q : InsertQuery.t) :
  InsertQuery.insert_values (a ++ b) conn raw_values q
  = (InsertQuery.insert_values a conn raw_values ≫= λ _,
     InsertQuery.insert_values b conn raw_values) q ∧
  GeoInsertQuery.insert_values (a ++ b) conn raw_values q
  = (GeoInsertQuery.insert_values a conn raw_values ≫= λ _,
     GeoInsertQuery.insert_values b conn raw_values) q.
Proof.
  destruct raw_values.
  - split.
    + erewrite (bind_returned _ _ q) by apply insert_values_raw_run.
      rewrite !insert_values_raw_run. simpl. unfold columns_of.
      by rewrite !fmap_app, !app_assoc.
    + erewrite (bind_returned _ _ q) by apply geo_insert_values_raw_run.
      rewrite !geo_insert_values_raw_run. simpl. unfold columns_of.
      by rewrite filter_app, !fmap_app, !app_assoc.
  - split.
    + erewrite (bind_returned _ _ q) by apply insert_values_run.
      rewrite !insert_values_run. simpl. unfold columns_of, placeholders_of.
      by rewrite !fmap_app, !app_assoc.
    + erewrite (bind_returned _ _ q) by apply geo_insert_values_run.
      rewrite !geo_insert_values_run. simpl.
      unfold columns_of, placeholders_of.
      by rewrite filter_app, !fmap_app, !app_assoc.
Qed.

(** X11. On pairs none of whose placeholders is the literal [NULL], and in
    particular on fields without a [get_placeholder] method,
    [GeoInsertQuery.insert_values] does exactly what
    [InsertQuery.insert_values] does. *)
Theorem geo_insert_values_agrees_without_null {W : WhereClass}
    (items : list (Field * value)) (conn : Connection) (raw_values : bool)
    (q : InsertQuery.t) :
  (Forall (not_null conn) items →
   GeoInsertQuery.insert_values items conn raw_values q
   = InsertQuery.insert_values items conn raw_values q) ∧
  (Forall (λ item, get_placeholder item.1 = None) items →
   GeoInsertQuery.insert_values items conn raw_values q
   = InsertQuery.insert_values items conn raw_values q).
Proof.
  assert (Forall (not_null conn) items →
          GeoInsertQuery.insert_values items conn raw_values q
          = InsertQuery.insert_values items conn raw_values q) as Hagree.
  { intros Hall. destruct raw_values.
    - rewrite geo_insert_values_raw_run, insert_values_raw_run.
      by rewrite filter_all.
    - rewrite geo_insert_values_run, insert_values_run.
      by rewrite filter_all. }
  split; [done|]. intros Hplain. apply Hagree.
  eapply Forall_impl; [exact Hplain|].
  intros item Hnone. unfold not_null, InsertQuery.placeholder_of.
  by rewrite Hnone.
Qed.

Lemma geo_insert_values_agrees_without_null_witness :
  GeoInsertQuery.insert_values (W := Sample.tree_where)
    [(Sample.plain_field "name", VStr "Luigi");
     (Sample.geo_field "location", VStr "POINT(1 2)")]
    {| conn_alias := None |} false
    (InsertQuery.init (Sample.empty_query "Restaurant"))
  = InsertQuery.insert_values (W := Sample.tree_where)
      [(Sample.plain_field "name", VStr "Luigi");
       (Sample.geo_field "location", VStr "POINT(1 2)")]
      {| conn_alias := None |} false
      (InsertQuery.init (Sample.empty_query "Restaurant")).
Proof.
  apply (proj1 (geo_insert_values_agrees_without_null
                  (W := Sample.tree_where) _ _ _ _)).
  apply Forall_cons. split; [by unfold not_null|].
  apply Forall_cons. split; [by unfold not_null|].
  apply Forall_nil_2.
Defined.

(** X12. With [raw_values=True], [InsertQuery.insert_values] appends one
    column and one raw value per pair and leaves [params] alone; the
    placeholders it computes are dropped.  [GeoInsertQuery.insert_values]
    also appends one column per pair, but a raw value only for the pairs
    whose placeholder is not [NULL], so its [values] can grow by less than
    its [columns]. *)
Theorem insert_values_raw {W : WhereClass}
    (items : list (Field * value)) (conn : Connection) (q : InsertQuery.t) :
  let b := InsertQuery.insert_values items conn true q in
  let g := GeoInsertQuery.insert_values items conn true q in
  (b.1 = Returned tt ∧
   InsertQuery.columns b.2 = InsertQuery.columns q ++ columns_of items ∧
   InsertQuery.values b.2 = InsertQuery.values q ++ (snd <$> items) ∧
   InsertQuery.params b.2 = InsertQuery.params q) ∧
  (g.1 = Returned tt ∧
   InsertQuery.columns g.2 = InsertQuery.columns q ++ columns_of items ∧
   InsertQuery.values g.2
   = InsertQuery.values q ++ (snd <$> filter (not_null conn) items) ∧
   InsertQuery.params g.2 = InsertQuery.params q) ∧
  (∃ items' conn',
     let g' := GeoInsertQuery.insert_values items' conn' true q in
     length (InsertQuery.values g'.2) - length (InsertQuery.values q)
     < length (InsertQuery.columns g'.2) - length (InsertQuery.columns q)).
Proof.
  cbv zeta. rewrite insert_values_raw_run, geo_insert_values_raw_run. simpl.
  repeat split.
  exists [(Sample.geo_field "location", VNone)], conn.
  rewrite geo_insert_values_raw_run. simpl.
  rewrite !length_app. simpl. lia.
Qed.

(** X13. When [get_compiler(using)] returns a compiler, [insert_query]
    executes exactly once, through the insert compiler on the given alias
    with [return_id] as argument, and ends as that execution does: it
    returns what the execution returns, or raises what it raises.
    The query it executes is a fresh insert query of the model with one
    column per pair, in order; without [raw_values] its [values] are the
    placeholders, computed for the compiler's connection, and its [params]
    the values whose placeholder is not [NULL]; its own [return_id]
    attribute stays false whatever [return_id] is passed. *)
Theorem insert_query_executes_built_query
    {W : WhereClass} {QB : QueryBase} {CI : CompilerLayer InsertQuery.t}
    (conn : Connection)
    (model : Model) (values : list (Field * value)) (return_id : bool)
    (raw_values : bool) (db : DB) :
  Query_get_compiler (CompilerLayer := CI) "SQLInsertCompiler" db
    (InsertQuery.init (Query_init model)) = inr conn →
  ∃ e,
    insert_query model values return_id raw_values db
    = (outcome_of (Compiler_execute_sql [] e),
       {| self := query e; executed := [e] |}) ∧
    compiler e = "SQLInsertCompiler" ∧ using_ e = db ∧
    arg e = VBool return_id ∧
    InsertQuery.base (query e) = Query_init model ∧
    InsertQuery.columns (query e) = columns_of values ∧
    InsertQuery.return_id (query e) = false ∧
    InsertQuery.values (query e)
    = (if raw_values
       then snd <$> filter (not_null conn) values
       else VStr <$> placeholders_of conn values) ∧
    InsertQuery.params (query e)
    = (if raw_values then []
       else snd <$> filter (not_null conn) values).
Proof.
  intros Hready.
  exists {| compiler := "SQLInsertCompiler"; using_ := db;
            query :=
              (GeoInsertQuery.insert_values values conn raw_values
                 (InsertQuery.init (Query_init model))).2;
            arg := VBool return_id |}.
  split; [by apply insert_query_run|]. simpl.
  destruct raw_values.
  - by rewrite geo_insert_values_raw_run.
  - by rewrite geo_insert_values_run.
Qed.

Lemma insert_query_executes_built_query_witness :
  ∃ e,
    executed
      (insert_query (W := Sample.tree_where) (QB := Sample.query_base)
         (CI := Sample.compilers _) "City"
         [(Sample.plain_field "name", VStr "Roma");
          (Sample.geo_field "location", VNone)]
         true false (Some "default")).2 = [e] ∧
    InsertQuery.values (query e) = [VStr "%s"; VStr "NULL"] ∧
    InsertQuery.params (query e) = [VStr "Roma"].
Proof.
  destruct (insert_query_executes_built_query
              (W := Sample.tree_where) (QB := Sample.query_base)
              (CI := Sample.compilers _)
              {| conn_alias := Some "default" |} "City"
              [(Sample.plain_field "name", VStr "Roma");
               (Sample.geo_field "location", VNone)]
              true false (Some "default"))
    as (e & Hrun & _ & _ & _ & _ & _ & _ & Hvalues & Hparams).
  - reflexivity.
  - exists e. rewrite Hrun. split; [reflexivity|].
    split; [exact Hvalues|exact Hparams].
Defined.

(** ** add_date_select when a collaborator fails *)

(** X14. [add_date_select] raises exactly when [setup_joins] raises or
    returns an empty join list (an IndexError), and then none of its own
    assignments has happened: the query is as [get_initial_alias] and
    [setup_joins] left it. *)
Theorem add_date_select_raises_before_assigning
    {W : WhereClass} {QB : QueryBase}
    (field : Field) (lookup_type : string) (order : value) (q : Query) :
  let initial := get_initial_alias q in
  let res := setup_joins [name field] (get_meta q) initial.1 false initial.2
  in
  let run := DateQuery.add_date_select field lookup_type order q in
  (raises run ↔
   (∃ e, res.1 = inl e)
   ∨ (∃ result, res.1 = inr result ∧ joins result = [])) ∧
  (∀ e, res.1 = inl e → run = (Raised (Foreign e), res.2)) ∧
  (∀ result, res.1 = inr result → joins result = [] →
     run = (Raised IndexError, res.2)) ∧
  (raises run → run.2 = res.2).
Proof.
  intros initial res run.
  assert (∀ e, res.1 = inl e → run = (Raised (Foreign e), res.2))
    as Hforeign.
  { intros e He. subst run. unfold DateQuery.add_date_select.
    rewrite (bind_returned _ _ q q q) by reflexivity.
    rewrite (bind_returned _ _ q initial.1 initial.2)
      by (unfold DateQuery.call; subst initial;
          by destruct (get_initial_alias q)).
    apply bind_raised_eq. unfold DateQuery.call_setup_joins.
    fold res. destruct res as [r q2]. simpl in He. by subst. }
  assert (∀ result, res.1 = inr result → joins result = [] →
            run = (Raised IndexError, res.2)) as Hindex.
  { intros result Hr Hnil. subst run. unfold DateQuery.add_date_select.
    rewrite (bind_returned _ _ q q q) by reflexivity.
    rewrite (bind_returned _ _ q initial.1 initial.2)
      by (unfold DateQuery.call; subst initial;
          by destruct (get_initial_alias q)).
    rewrite (bind_returned _ _ initial.2 result res.2).
    - apply bind_raised_eq. unfold DateQuery.last_item. by rewrite Hnil.
    - unfold DateQuery.call_setup_joins. fold res.
      destruct res as [r q2]. simpl in Hr. by subst. }
  assert (raises run →
          (∃ e, res.1 = inl e)
          ∨ (∃ result, res.1 = inr result ∧ joins result = [])) as Hwhy.
  { intros Hraise. destruct res.1 as [e|result] eqn:Hres; [left; by eexists|].
    right. exists result. split; [done|].
    destruct (last (joins result)) as [alias|] eqn:Hlast;
      [|by apply last_None].
    exfalso. subst run.
    rewrite (add_date_select_run field lookup_type order q initial.1
               initial.2 result res.2 alias) in Hraise; [done|..|done].
    - subst initial. by destruct (get_initial_alias q).
    - fold res. destruct res as [r q2]. simpl in Hres. by subst. }
  split; [split; [done|]|].
  - intros [[e He]|(result & Hr & Hnil)].
    + by rewrite (Hforeign e He).
    + by rewrite (Hindex result Hr Hnil).
  - split; [done|]. split; [done|].
    intros [[e He]|(result & Hr & Hnil)]%Hwhy.
    + by rewrite (Hforeign e He).
    + by rewrite (Hindex result Hr Hnil).
Qed.

Lemma add_date_select_raises_before_assigning_witness :
  DateQuery.add_date_select (W := Sample.tree_where)
    (QB := Sample.unresolved_joins)
    (Sample.plain_field "opened") "year" (VStr "ASC")
    (Sample.empty_query "Restaurant")
  = (Raised (Foreign "FieldError"),
     set_tables ["Restaurant"] (Sample.empty_query "Restaurant")).
Proof.
  apply (add_date_select_raises_before_assigning
           (W := Sample.tree_where) (QB := Sample.unresolved_joins)
           (Sample.plain_field "opened") "year" (VStr "ASC")
           (Sample.empty_query "Restaurant")).
  reflexivity.
Defined.

(** ** add_update_values and the order of the dictionary *)

Section add_update_values_order.
Context {W : WhereClass} {ML : MetaLayer}.

Lemma add_update_values_returns_iff (values : list (string * value))
    (q : UpdateQuery.t) :
  (UpdateQuery.add_update_values values q).1 = Returned tt ↔
  Forall (updatable (model (UpdateQuery.base q))) values.
Proof.
  split;
    [|intros Hall;
      by destruct (add_update_values_on_success values q Hall) as [? _]].
  rewrite add_update_values_run.
  pose proof (add_update_values_loop_effect values [] q) as Heff.
  cbv zeta in Heff.
  destruct (UpdateQuery.add_update_values_loop values [] q) as [[vs|e] q'];
    simpl; [by destruct Heff as (_ & ? & _)|done].
Qed.

Lemma grow_app o a b : grow (grow o a) b = grow o (a ++ b).
Proof.
  destruct a as [|x a]; [done|]. destruct b as [|y b]; simpl.
  - by rewrite app_nil_r.
  - by rewrite <- app_assoc.
Qed.

Lemma grow_Permutation o a b :
  a ≡ₚ b → option_Forall2 (≡ₚ) (grow o a) (grow o b).
Proof.
  intros Hab. destruct a as [|x a], b as [|y b]; simpl.
  - destruct o; by constructor.
  - by apply Permutation_nil_cons in Hab.
  - symmetry in Hab. by apply Permutation_nil_cons in Hab.
  - constructor. by apply Permutation_app.
Qed.

Lemma update_query_eq (q1 q2 : UpdateQuery.t) :
  UpdateQuery.base q1 = UpdateQuery.base q2 →
  UpdateQuery.values q1 = UpdateQuery.values q2 →
  UpdateQuery.related_ids q1 = UpdateQuery.related_ids q2 →
  UpdateQuery.related_updates q1 = UpdateQuery.related_updates q2 →
  q1 = q2.
Proof. destruct q1, q2; simpl. by intros -> -> -> ->. Qed.
End add_update_values_order.

(** X15. The iteration order of the dictionary does not decide whether
    [add_update_values] returns: it returns exactly when every item is
    accepted.  For two orders of the same items on which it returns, the
    resulting [values] are permutations of each other, and so are the
    lists recorded in [related_updates] under each ancestor model. *)
Theorem add_update_values_order_irrelevant
    {W : WhereClass} {ML : MetaLayer}
    (values values' : list (string * value)) (q : UpdateQuery.t) :
  values ≡ₚ values' →
  ((UpdateQuery.add_update_values values q).1 = Returned tt ↔
   (UpdateQuery.add_update_values values' q).1 = Returned tt) ∧
  ((UpdateQuery.add_update_values values q).1 = Returned tt →
   UpdateQuery.values (UpdateQuery.add_update_values values q).2
   ≡ₚ UpdateQuery.values (UpdateQuery.add_update_values values' q).2 ∧
   ∀ k,
     option_Forall2 (≡ₚ)
       (UpdateQuery.related_updates
          (UpdateQuery.add_update_values values q).2 !! k)
       (UpdateQuery.related_updates
          (UpdateQuery.add_update_values values' q).2 !! k)).
Proof.
  intros Hperm.
  assert (Forall (updatable (model (UpdateQuery.base q))) values ↔
          Forall (updatable (model (UpdateQuery.base q))) values') as Hall.
  { by rewrite Hperm. }
  split; [by rewrite !add_update_values_returns_iff|].
  intros Hret%add_update_values_returns_iff.
  destruct (add_update_values_on_success values q Hret)
    as (_ & -> & Hru & _).
  destruct (add_update_values_on_success values' q (proj1 Hall Hret))
    as (_ & -> & Hru' & _).
  split.
  - apply Permutation_app; [done|]. by rewrite Hperm.
  - intros k. rewrite Hru, Hru'. apply grow_Permutation. by rewrite Hperm.
Qed.

Lemma add_update_values_order_irrelevant_witness :
  (UpdateQuery.add_update_values (W := Sample.tree_where)
     (ML := Sample.meta)
     [("serves_pizza", VBool true); ("name", VStr "Luigi")]
     Sample.restaurant_update).1
  = Returned tt.
Proof.
  apply (add_update_values_order_irrelevant
           (W := Sample.tree_where) (ML := Sample.meta)
           [("name", VStr "Luigi"); ("serves_pizza", VBool true)]
           [("serves_pizza", VBool true); ("name", VStr "Luigi")]
           Sample.restaurant_update).
  - apply Permutation_swap.
  - reflexivity.
Defined.

(** X16. When every item of two dictionaries is accepted, updating with
    the first and then with the second leaves the query exactly as one
    update with the items of both, the first's before the second's. *)
Theorem add_update_values_accumulates
    {W : WhereClass} {ML : MetaLayer}
    (a b : list (string * value)) (q : UpdateQuery.t) :
  Forall (updatable (model (UpdateQuery.base q))) (a ++ b) →
  UpdateQuery.add_update_values (a ++ b) q
  = (UpdateQuery.add_update_values a ≫= λ _,
     UpdateQuery.add_update_values b) q.
Proof.
  intros Hall. pose proof Hall as [Ha Hb]%Forall_app.
  destruct (add_update_values_on_success (a ++ b) q Hall)
    as (Hret & Hv & Hru & Hbase & Hids).
  destruct (add_update_values_on_success a q Ha)
    as (Hret1 & Hv1 & Hru1 & Hbase1 & Hids1).
  set (q1 := (UpdateQuery.add_update_values a q).2) in *.
  rewrite <- Hbase1 in Hb.
  destruct (add_update_values_on_success b q1 Hb)
    as (Hret2 & Hv2 & Hru2 & Hbase2 & Hids2).
  rewrite (bind_returned _ _ q tt q1)
    by (subst q1; destruct (UpdateQuery.add_update_values a q) as [o ?];
        simpl in *; by subst).
  destruct (UpdateQuery.add_update_values (a ++ b) q) as [o qab].
  destruct (UpdateQuery.add_update_values b q1) as [o2 q2].
  simpl in *. subst o o2. f_equal.
  apply update_query_eq.
  - congruence.
  - rewrite Hv, Hv2, Hv1, Hbase1, omap_app. by rewrite app_assoc.
  - congruence.
  - apply map_eq. intros k.
    rewrite Hru, Hru2, Hru1, Hbase1, omap_app. by rewrite grow_app.
Qed.

Lemma add_update_values_accumulates_witness :
  UpdateQuery.add_update_values (W := Sample.tree_where) (ML := Sample.meta)
    ([("name", VStr "Luigi")] ++ [("serves_pizza", VBool true)])
    Sample.restaurant_update
  = (UpdateQuery.add_update_values (W := Sample.tree_where)
       (ML := Sample.meta) [("name", VStr "Luigi")] ≫= λ _,
     UpdateQuery.add_update_values (W := Sample.tree_where)
       (ML := Sample.meta) [("serves_pizza", VBool true)])
      Sample.restaurant_update.
Proof.
  apply (add_update_values_accumulates
           (W := Sample.tree_where) (ML := Sample.meta)).
  repeat constructor; try (by eexists);
    intros (f & m & d & m2 & [= <- <- <- <-] & [?|?]); discriminate.
Defined.

Lemma get_related_updates_one_per_ancestor_witness :
  UpdateQuery.get_related_updates (W := Sample.tree_where)
    (QB := Sample.query_base) (FL := Sample.filters)
    Sample.restaurant_update
  = [].
Proof.
  apply (get_related_updates_one_per_ancestor
           (W := Sample.tree_where) (QB := Sample.query_base)
           (FL := Sample.filters) Sample.restaurant_update).
  reflexivity.
Defined.
